(** * The GSK generational resource cache (gsk/gskresourcecache.c)

    A shallow embedding of [GskResourceCache]: the private instance
    structure, the cache entry, the configuration setters and the five
    operations add / has / get / invalidate / collect, followed by the
    properties the specification states about them.

    Conventions of the embedding.
    - [gint64] and [int] values are integers of [Z] and every C addition
      or subtraction is followed by its two's-complement wrap-around.
    - Pointers are addresses in [Z]; [NULL] is [0].
    - The [GHashTable] is a finite map from keys to entries.  The key type
      stands for keys as identified by the table's equality function; the
      functions handed to [g_hash_table_new_full] are kept in the table.
    - [g_critical], [g_return_if_fail] and the calls into the GObject type
      system that manage a value's lifetime are recorded as events, in
      program order.
    - [g_get_monotonic_time] and [GHashTableIter]'s traversal order are
      inputs of the operations that use them.
    - The operations act on the private data of a cache instance, so the
      [GSK_IS_RESOURCE_CACHE] checks pass.
    Statements that speak of an age going up or down by one carry the
    range in which the C arithmetic does not overflow. *)

From stdpp Require Import gmap strings list fin_maps.
From Stdlib Require Import ZArith Lia.

Local Open Scope Z_scope.

(** ** Machine integers *)

Definition wrap_signed (w z : Z) : Z := (z + 2 ^ (w - 1)) mod 2 ^ w - 2 ^ (w - 1).

Definition G_MININT64 : Z := - 2 ^ 63.
Definition G_MAXINT64 : Z := 2 ^ 63 - 1.
Definition G_MAXINT : Z := 2 ^ 31 - 1.

(** The value a [gint64] object holds after being assigned [z]. *)
Definition gint64 (z : Z) : Z := wrap_signed 64 z.
(** The value an [int] object holds after being assigned [z]. *)
Definition int (z : Z) : Z := wrap_signed 32 z.

(** ** GLib types used by the cache *)

Definition gpointer := Z.
Definition NULL : gpointer := 0.

Definition GType := Z.
Definition GHashFunc := Z.
Definition GEqualFunc := Z.
Definition GDestroyNotify := Z.

(** gtype.h: fundamental type numbers are shifted by [G_TYPE_FUNDAMENTAL_SHIFT]. *)
Definition G_TYPE_FUNDAMENTAL_SHIFT : Z := 2.
Definition G_TYPE_MAKE_FUNDAMENTAL (x : Z) : GType := Z.shiftl x G_TYPE_FUNDAMENTAL_SHIFT.
Definition G_TYPE_INVALID : GType := G_TYPE_MAKE_FUNDAMENTAL 0.
Definition G_TYPE_POINTER : GType := G_TYPE_MAKE_FUNDAMENTAL 17.
Definition G_TYPE_BOXED : GType := G_TYPE_MAKE_FUNDAMENTAL 18.
Definition G_TYPE_OBJECT : GType := G_TYPE_MAKE_FUNDAMENTAL 20.

(** The part of the GObject type system the cache calls into: the
    fundamental ancestor of a registered type ([G_TYPE_FUNDAMENTAL]) and
    the address [g_boxed_copy] returns for a boxed value. *)
Class GTypeSystem := {
  G_TYPE_FUNDAMENTAL : GType → GType;
  g_boxed_copy : GType → gpointer → gpointer
}.

(** ** Diagnostics and events *)

Inductive Diagnostic :=
  | AssertionFailed (expr : string)
  | UnsupportedResourceType (ty : GType)
  | InvalidResourceType
  | TooManyInvalidations (ty : GType).

Inductive Event {Key : Type} :=
  | Critical (d : Diagnostic)
  | BoxedCopy (ty : GType) (v : gpointer)
  | ObjectRef (v : gpointer)
  | BoxedFree (ty : GType) (v : gpointer)
  | ObjectUnref (v : gpointer)
  | KeyNotify (f : GDestroyNotify) (k : Key).
Arguments Event : clear implicits.

(** ** Cache entries *)

Record ResourceCacheItem := {
  item_value_type : GType;
  value : gpointer;
  last_access_time : Z;
  age : Z
}.

Definition set_age (a : Z) (item : ResourceCacheItem) : ResourceCacheItem :=
  {| item_value_type := item_value_type item; value := value item;
     last_access_time := last_access_time item; age := a |}.

Definition set_last_access_time (t : Z) (item : ResourceCacheItem) : ResourceCacheItem :=
  {| item_value_type := item_value_type item; value := value item;
     last_access_time := t; age := age item |}.

Section Model.
Context `{Countable Key} `{GTypeSystem}.

(** A [GHashTable] created by [g_hash_table_new_full]; the value destroy
    function is always [resource_cache_item_free]. *)
Record GHashTable := {
  hash_func : GHashFunc;
  key_equal_func : GEqualFunc;
  key_destroy_func : GDestroyNotify;
  entries : gmap Key ResourceCacheItem
}.

Definition g_hash_table_new_full (h : GHashFunc) (e : GEqualFunc) (d : GDestroyNotify)
  : GHashTable :=
  {| hash_func := h; key_equal_func := e; key_destroy_func := d; entries := ∅ |}.

Definition set_entries (m : gmap Key ResourceCacheItem) (t : GHashTable) : GHashTable :=
  {| hash_func := hash_func t; key_equal_func := key_equal_func t;
     key_destroy_func := key_destroy_func t; entries := m |}.

Definition g_hash_table_lookup (t : GHashTable) (k : Key) : option ResourceCacheItem :=
  entries t !! k.

Record GskResourceCachePrivate := {
  resources : option GHashTable;
  key_hash : GHashFunc;
  key_equal : GEqualFunc;
  key_notify : GDestroyNotify;
  value_type : GType;
  name : option string
}.

Definition set_resources (r : option GHashTable) (p : GskResourceCachePrivate) :=
  {| resources := r; key_hash := key_hash p; key_equal := key_equal p;
     key_notify := key_notify p; value_type := value_type p; name := name p |}.

(** What a call leaves behind: its return value, the instance data
    afterwards and the events it emitted. *)
Record Outcome (A : Type) := {
  ret : A;
  post : GskResourceCachePrivate;
  emitted : list (Event Key)
}.
Global Arguments ret {A} _.
Global Arguments post {A} _.
Global Arguments emitted {A} _.

Definition g_return_if_fail {A} (expr : string) (r : A) (priv : GskResourceCachePrivate)
  : Outcome A :=
  {| ret := r; post := priv; emitted := [Critical (AssertionFailed expr)] |}.

(** *** Construction *)

(** Instance private data is zero-filled and [gsk_resource_cache_init]
    is empty. *)
Definition gsk_resource_cache_init : GskResourceCachePrivate :=
  {| resources := None; key_hash := NULL; key_equal := NULL; key_notify := NULL;
     value_type := G_TYPE_INVALID; name := None |}.

(** [gsk_resource_cache_set_property], case [PROP_NAME]. *)
Definition gsk_resource_cache_set_property (v : option string)
    (priv : GskResourceCachePrivate) : GskResourceCachePrivate :=
  match v with
  | Some n =>
      {| resources := resources priv; key_hash := key_hash priv;
         key_equal := key_equal priv; key_notify := key_notify priv;
         value_type := value_type priv; name := Some n |}
  | None => priv
  end.

(** *** Configuration *)

Definition gsk_resource_cache_set_hash_func (priv : GskResourceCachePrivate)
    (f : GHashFunc) : Outcome unit :=
  match resources priv with
  | Some _ => g_return_if_fail "priv->resources == NULL" () priv
  | None =>
      {| ret := ();
         post := {| resources := resources priv; key_hash := f;
                    key_equal := key_equal priv; key_notify := key_notify priv;
                    value_type := value_type priv; name := name priv |};
         emitted := [] |}
  end.

Definition gsk_resource_cache_set_equal_func (priv : GskResourceCachePrivate)
    (f : GEqualFunc) : Outcome unit :=
  match resources priv with
  | Some _ => g_return_if_fail "priv->resources == NULL" () priv
  | None =>
      {| ret := ();
         post := {| resources := resources priv; key_hash := key_hash priv;
                    key_equal := f; key_notify := key_notify priv;
                    value_type := value_type priv; name := name priv |};
         emitted := [] |}
  end.

Definition gsk_resource_cache_set_free_func (priv : GskResourceCachePrivate)
    (f : GDestroyNotify) : Outcome unit :=
  match resources priv with
  | Some _ => g_return_if_fail "priv->resources == NULL" () priv
  | None =>
      {| ret := ();
         post := {| resources := resources priv; key_hash := key_hash priv;
                    key_equal := key_equal priv; key_notify := f;
                    value_type := value_type priv; name := name priv |};
         emitted := [] |}
  end.

Definition gsk_resource_cache_set_value_type (priv : GskResourceCachePrivate)
    (ty : GType) : Outcome unit :=
  match resources priv with
  | Some _ => g_return_if_fail "priv->resources == NULL" () priv
  | None =>
      if ty =? G_TYPE_INVALID
      then g_return_if_fail "value_type != G_TYPE_INVALID" () priv
      else if negb (G_TYPE_FUNDAMENTAL ty =? G_TYPE_POINTER)
              || negb (G_TYPE_FUNDAMENTAL ty =? G_TYPE_BOXED)
              || negb (G_TYPE_FUNDAMENTAL ty =? G_TYPE_OBJECT)
      then {| ret := (); post := priv;
              emitted := [Critical (UnsupportedResourceType ty)] |}
      else {| ret := ();
              post := {| resources := resources priv; key_hash := key_hash priv;
                         key_equal := key_equal priv; key_notify := key_notify priv;
                         value_type := ty; name := name priv |};
              emitted := [] |}
  end.

(** [g_intern_string] maps [NULL] to [NULL] and a string to its
    canonical copy. *)
Definition gsk_resource_cache_set_name (priv : GskResourceCachePrivate)
    (n : option string) : Outcome unit :=
  {| ret := ();
     post := {| resources := resources priv; key_hash := key_hash priv;
                key_equal := key_equal priv; key_notify := key_notify priv;
                value_type := value_type priv; name := n |};
     emitted := [] |}.

(** *** Entry life cycle *)

(** [g_slice_new0] zero-fills the entry. *)
Definition g_slice_new0 : ResourceCacheItem :=
  {| item_value_type := 0; value := NULL; last_access_time := 0; age := 0 |}.

Definition resource_cache_item_new (ty : GType) (v : gpointer)
  : option ResourceCacheItem * list (Event Key) :=
  if ty =? G_TYPE_INVALID then (None, [Critical InvalidResourceType])
  else
    let item val := {| item_value_type := ty; value := val;
                       last_access_time := last_access_time g_slice_new0; age := 1 |} in
    if G_TYPE_FUNDAMENTAL ty =? G_TYPE_POINTER then (Some (item v), [])
    else if G_TYPE_FUNDAMENTAL ty =? G_TYPE_BOXED then
      if v =? NULL then (Some (item (value g_slice_new0)), [])
      else (Some (item (g_boxed_copy ty v)), [BoxedCopy ty v])
    else if G_TYPE_FUNDAMENTAL ty =? G_TYPE_OBJECT then
      if v =? NULL then (Some (item (value g_slice_new0)), [])
      else (Some (item v), [ObjectRef v])
    else (None, [Critical (UnsupportedResourceType ty)]).

Definition resource_cache_item_get_value (now : Z) (item : ResourceCacheItem)
  : gpointer * ResourceCacheItem :=
  (value item, set_last_access_time now item).

Definition resource_cache_item_free (item : ResourceCacheItem) : list (Event Key) :=
  if G_TYPE_FUNDAMENTAL (item_value_type item) =? G_TYPE_POINTER then []
  else if G_TYPE_FUNDAMENTAL (item_value_type item) =? G_TYPE_BOXED then
    if value item =? NULL then [] else [BoxedFree (item_value_type item) (value item)]
  else if G_TYPE_FUNDAMENTAL (item_value_type item) =? G_TYPE_OBJECT then
    if value item =? NULL then [] else [ObjectUnref (value item)]
  else [Critical (UnsupportedResourceType (item_value_type item))].

(** *** Operations *)

Definition gsk_resource_cache_add_item (priv : GskResourceCachePrivate)
    (key : Key) (v : gpointer) : Outcome unit :=
  let tbl := match resources priv with
             | None => g_hash_table_new_full (key_hash priv) (key_equal priv)
                                             (key_notify priv)
             | Some t => t
             end in
  match g_hash_table_lookup tbl key with
  | Some item =>
      {| ret := ();
         post := set_resources
                   (Some (set_entries
                            (<[key := set_age (gint64 (age item + 1)) item]> (entries tbl))
                            tbl)) priv;
         emitted := [] |}
  | None =>
      match resource_cache_item_new (value_type priv) v with
      | (Some item, evs) =>
          {| ret := ();
             post := set_resources
                       (Some (set_entries (<[key := item]> (entries tbl)) tbl)) priv;
             emitted := evs |}
      | (None, evs) =>
          {| ret := (); post := set_resources (Some tbl) priv; emitted := evs |}
      end
  end.

Definition gsk_resource_cache_has_item (priv : GskResourceCachePrivate) (key : Key)
  : Outcome bool :=
  match resources priv with
  | None => {| ret := false; post := priv; emitted := [] |}
  | Some tbl =>
      {| ret := bool_decide (is_Some (g_hash_table_lookup tbl key));
         post := priv; emitted := [] |}
  end.

Definition gsk_resource_cache_get_item (priv : GskResourceCachePrivate) (key : Key)
    (now : Z) : Outcome gpointer :=
  match resources priv with
  | None => {| ret := NULL; post := priv; emitted := [] |}
  | Some tbl =>
      match g_hash_table_lookup tbl key with
      | None => {| ret := NULL; post := priv; emitted := [] |}
      | Some item =>
          let '(v, item') := resource_cache_item_get_value now item in
          {| ret := v;
             post := set_resources
                       (Some (set_entries (<[key := item']> (entries tbl)) tbl)) priv;
             emitted := [] |}
      end
  end.

Definition gsk_resource_cache_invalidate_item (priv : GskResourceCachePrivate)
    (key : Key) : Outcome bool :=
  match resources priv with
  | None => {| ret := false; post := priv; emitted := [] |}
  | Some tbl =>
      match g_hash_table_lookup tbl key with
      | None => {| ret := false; post := priv; emitted := [] |}
      | Some item =>
          let a := gint64 (age item - 1) in
          let '(a', evs) :=
            if a <? 0
            then (0, [Critical (TooManyInvalidations (value_type priv))])
            else (a, []) in
          {| ret := true;
             post := set_resources
                       (Some (set_entries (<[key := set_age a' item]> (entries tbl)) tbl))
                       priv;
             emitted := evs |}
      end
  end.

(** [g_hash_table_iter_remove]: the key is handed to the table's key
    destroy function, if there is one, and the entry to
    [resource_cache_item_free]. *)
Definition g_hash_table_iter_remove (d : GDestroyNotify) (key : Key)
    (item : ResourceCacheItem) : list (Event Key) :=
  (if d =? NULL then [] else [KeyNotify d key]) ++ resource_cache_item_free item.

(** One turn of the [while (g_hash_table_iter_next (...))] loop, at the
    entry [kv] the iterator stands on. *)
Definition collect_step (d : GDestroyNotify)
    (acc : gmap Key ResourceCacheItem * Z * list (Event Key))
    (kv : Key * ResourceCacheItem)
  : gmap Key ResourceCacheItem * Z * list (Event Key) :=
  let '(m, res, evs) := acc in
  if age kv.2 =? 0
  then (delete kv.1 m, int (res + 1), evs ++ g_hash_table_iter_remove d kv.1 kv.2)
  else (<[kv.1 := set_age (gint64 (age kv.2 - 1)) kv.2]> m, res, evs).

(** The whole loop, the iterator visiting the entries in the order
    [order]. *)
Definition collect_loop (d : GDestroyNotify) (order : list (Key * ResourceCacheItem))
    (m : gmap Key ResourceCacheItem)
  : gmap Key ResourceCacheItem * Z * list (Event Key) :=
  foldl (collect_step d) (m, 0, []) order.

(** [gsk_resource_cache_collect_items] with the traversal order made
    explicit; [order] lists the table's entries, each once. *)
Definition collect_items_in (order : list (Key * ResourceCacheItem))
    (priv : GskResourceCachePrivate) : Outcome Z :=
  match resources priv with
  | None => {| ret := 0; post := priv; emitted := [] |}
  | Some tbl =>
      let '(m, res, evs) := collect_loop (key_destroy_func tbl) order (entries tbl) in
      {| ret := res; post := set_resources (Some (set_entries m tbl)) priv;
         emitted := evs |}
  end.

Definition gsk_resource_cache_collect_items (priv : GskResourceCachePrivate)
  : Outcome Z :=
  collect_items_in
    (match resources priv with
     | None => []
     | Some tbl => map_to_list (entries tbl)
     end) priv.

(** *** Observations used in the statements *)

(** The entries of the cache; none before the table is allocated. *)
Definition items (priv : GskResourceCachePrivate) : gmap Key ResourceCacheItem :=
  match resources priv with
  | None => ∅
  | Some tbl => entries tbl
  end.

(** The configuration of the cache. *)
Definition config (priv : GskResourceCachePrivate)
  : GHashFunc * GEqualFunc * GDestroyNotify * GType * option string :=
  (key_hash priv, key_equal priv, key_notify priv, value_type priv, name priv).

(** The part of the configuration that the setters guard once the table
    exists. *)
Definition frozen_part (priv : GskResourceCachePrivate)
  : GHashFunc * GEqualFunc * GDestroyNotify * GType :=
  (key_hash priv, key_equal priv, key_notify priv, value_type priv).

(** The value type is one the cache can store. *)
Definition supported_value_type (ty : GType) : bool :=
  negb (ty =? G_TYPE_INVALID)
  && ((G_TYPE_FUNDAMENTAL ty =? G_TYPE_POINTER)
      || (G_TYPE_FUNDAMENTAL ty =? G_TYPE_BOXED)
      || (G_TYPE_FUNDAMENTAL ty =? G_TYPE_OBJECT)).

(** [order] is a traversal of the cache's table: it lists the entries,
    each once, in some order. *)
Definition visits (order : list (Key * ResourceCacheItem))
    (priv : GskResourceCachePrivate) : Prop :=
  order ≡ₚ map_to_list (items priv).

(** The number of entries of [l] whose age is zero. *)
Definition stale (l : list (Key * ResourceCacheItem)) : nat :=
  length (filter (λ kv, age kv.2 = 0) l).

(** What one turn of the collection loop makes of an entry. *)
Definition survivor (item : ResourceCacheItem) : option ResourceCacheItem :=
  if age item =? 0 then None else Some (set_age (gint64 (age item - 1)) item).

(** A cache as [g_object_new] hands it over: zero-filled private data,
    then the construct-only property [name]. *)
Definition constructed (n : option string) : GskResourceCachePrivate :=
  gsk_resource_cache_set_property n gsk_resource_cache_init.

(** [times] successive calls of [gsk_resource_cache_get_item] on [key],
    the clock reading [now] at each. *)
Definition get_repeatedly (key : Key) (times : list Z)
    (priv : GskResourceCachePrivate) : GskResourceCachePrivate :=
  foldl (λ p now, post (gsk_resource_cache_get_item p key now)) priv times.

(** One call of the public interface, seen as a transition of the
    instance data. *)
Inductive call : GskResourceCachePrivate → GskResourceCachePrivate → Prop :=
  | call_add priv key v :
      call priv (post (gsk_resource_cache_add_item priv key v))
  | call_has priv key :
      call priv (post (gsk_resource_cache_has_item priv key))
  | call_get priv key now :
      call priv (post (gsk_resource_cache_get_item priv key now))
  | call_invalidate priv key :
      call priv (post (gsk_resource_cache_invalidate_item priv key))
  | call_collect priv order :
      visits order priv → call priv (post (collect_items_in order priv))
  | call_set_hash_func priv f :
      call priv (post (gsk_resource_cache_set_hash_func priv f))
  | call_set_equal_func priv f :
      call priv (post (gsk_resource_cache_set_equal_func priv f))
  | call_set_free_func priv f :
      call priv (post (gsk_resource_cache_set_free_func priv f))
  | call_set_value_type priv ty :
      call priv (post (gsk_resource_cache_set_value_type priv ty))
  | call_set_name priv n :
      call priv (post (gsk_resource_cache_set_name priv n)).

(** *** Disposal *)

(** [g_hash_table_unref] on the last reference: every node is destroyed,
    in the table's order [order], the way [g_hash_table_iter_remove]
    destroys one. *)
Definition g_hash_table_unref (order : list (Key * ResourceCacheItem))
    (t : GHashTable) : list (Event Key) :=
  order ≫= (λ kv, g_hash_table_iter_remove (key_destroy_func t) kv.1 kv.2).

(** [gsk_resource_cache_dispose] up to the call of the parent class:
    [g_clear_pointer] resets [priv->resources] and unrefs the table, of
    which the cache holds the only reference.  [order] is the table's
    order. *)
Definition dispose_in (order : list (Key * ResourceCacheItem))
    (priv : GskResourceCachePrivate) : Outcome unit :=
  match resources priv with
  | None => {| ret := (); post := priv; emitted := [] |}
  | Some tbl =>
      {| ret := (); post := set_resources None priv;
         emitted := g_hash_table_unref order tbl |}
  end.

Definition gsk_resource_cache_dispose (priv : GskResourceCachePrivate) : Outcome unit :=
  dispose_in (map_to_list (items priv)) priv.

(** *** Observations on traces *)

(** [n] collection sweeps in a row. *)
Definition collect_repeatedly (n : nat) (priv : GskResourceCachePrivate)
  : GskResourceCachePrivate :=
  Nat.iter n (λ p, post (gsk_resource_cache_collect_items p)) priv.

(** The release that undoes an acquisition. *)
Definition release_of (e : Event Key) : option (Event Key) :=
  match e with
  | BoxedCopy ty v => Some (BoxedFree ty (g_boxed_copy ty v))
  | ObjectRef v => Some (ObjectUnref v)
  | _ => None
  end.

Definition is_release (e : Event Key) : bool :=
  match e with
  | BoxedFree _ _ | ObjectUnref _ => true
  | _ => false
  end.

(** The releases a trace owes for its acquisitions, and the releases it
    performs. *)
Definition acquired (t : list (Event Key)) : list (Event Key) := omap release_of t.
Definition released (t : list (Event Key)) : list (Event Key) :=
  filter (λ e, is_release e = true) t.

(** The releases that freeing every entry of [m] performs. *)
Definition owed (m : gmap Key ResourceCacheItem) : list (Event Key) :=
  released (map_to_list m ≫= (λ kv, resource_cache_item_free kv.2)).

(** One call of the public interface together with the events it
    emits. *)
Inductive emits
  : GskResourceCachePrivate → list (Event Key) → GskResourceCachePrivate → Prop :=
  | emits_add priv key v :
      emits priv (emitted (gsk_resource_cache_add_item priv key v))
        (post (gsk_resource_cache_add_item priv key v))
  | emits_has priv key :
      emits priv (emitted (gsk_resource_cache_has_item priv key))
        (post (gsk_resource_cache_has_item priv key))
  | emits_get priv key now :
      emits priv (emitted (gsk_resource_cache_get_item priv key now))
        (post (gsk_resource_cache_get_item priv key now))
  | emits_invalidate priv key :
      emits priv (emitted (gsk_resource_cache_invalidate_item priv key))
        (post (gsk_resource_cache_invalidate_item priv key))
  | emits_collect priv order :
      visits order priv →
      emits priv (emitted (collect_items_in order priv))
        (post (collect_items_in order priv))
  | emits_set_hash_func priv f :
      emits priv (emitted (gsk_resource_cache_set_hash_func priv f))
        (post (gsk_resource_cache_set_hash_func priv f))
  | emits_set_equal_func priv f :
      emits priv (emitted (gsk_resource_cache_set_equal_func priv f))
        (post (gsk_resource_cache_set_equal_func priv f))
  | emits_set_free_func priv f :
      emits priv (emitted (gsk_resource_cache_set_free_func priv f))
        (post (gsk_resource_cache_set_free_func priv f))
  | emits_set_value_type priv ty :
      emits priv (emitted (gsk_resource_cache_set_value_type priv ty))
        (post (gsk_resource_cache_set_value_type priv ty))
  | emits_set_name priv n :
      emits priv (emitted (gsk_resource_cache_set_name priv n))
        (post (gsk_resource_cache_set_name priv n)).

(** A sequence of calls and the trace it leaves. *)
Inductive run
  : GskResourceCachePrivate → list (Event Key) → GskResourceCachePrivate → Prop :=
  | run_done priv : run priv [] priv
  | run_step priv t1 priv1 t2 priv2 :
      emits priv t1 priv1 → run priv1 t2 priv2 → run priv (t1 ++ t2) priv2.

(** Add called on [key] once for each value of [vs], and invalidate
    called on [key] [n] times. *)
Definition add_repeatedly (key : Key) (vs : list gpointer)
    (priv : GskResourceCachePrivate) : GskResourceCachePrivate :=
  foldl (λ p v, post (gsk_resource_cache_add_item p key v)) priv vs.

Definition invalidate_repeatedly (key : Key) (n : nat)
    (priv : GskResourceCachePrivate) : GskResourceCachePrivate :=
  Nat.iter n (λ p, post (gsk_resource_cache_invalidate_item p key)) priv.

End Model.

(** ** Concrete caches, used to exercise the statements *)

Module Examples.

(** A type system without derived types: every type is its own
    fundamental type, and a boxed copy lives 4096 bytes above its
    original. *)
Definition flat_types : GTypeSystem :=
  {| G_TYPE_FUNDAMENTAL := λ ty, ty; g_boxed_copy := λ _ v, v + 4096 |}.

(** A cache with integer keys whose value type is [ty] and whose table
    is [tbl]. *)
Definition cache (ty : GType) (tbl : option (GHashTable (Key := Z)))
  : GskResourceCachePrivate :=
  {| resources := tbl; key_hash := NULL; key_equal := NULL; key_notify := NULL;
     value_type := ty; name := None |}.

Definition table (m : gmap Z ResourceCacheItem) : GHashTable :=
  set_entries m (g_hash_table_new_full NULL NULL NULL).

Definition pointer_item (v : gpointer) (a : Z) : ResourceCacheItem :=
  {| item_value_type := G_TYPE_POINTER; value := v; last_access_time := 0; age := a |}.

(** Four entries, of ages 0, 0, 1 and 2. *)
Definition four_ages : gmap Z ResourceCacheItem :=
  <[1 := pointer_item 101 0]> (<[2 := pointer_item 102 0]>
    (<[3 := pointer_item 103 1]> (<[4 := pointer_item 104 2]> ∅))).

(** A pointer cache holding them. *)
Definition four_cache : GskResourceCachePrivate :=
  cache G_TYPE_POINTER (Some (table four_ages)).

(** A type system without derived types in which a boxed copy is never
    at address 0. *)
Definition heap_types : GTypeSystem :=
  {| G_TYPE_FUNDAMENTAL := λ ty, ty; g_boxed_copy := λ _ v, Z.abs v + 4096 |}.

Definition boxed_item (v : gpointer) (a : Z) : ResourceCacheItem :=
  {| item_value_type := G_TYPE_BOXED; value := v; last_access_time := 0; age := a |}.

(** A boxed cache whose keys are destroyed by the function at address 7,
    holding an entry of age 0 and an entry of age 1. *)
Definition boxed_cache : GskResourceCachePrivate (Key := Z) :=
  {| resources :=
       Some (set_entries (<[1 := boxed_item 4196 0]> (<[2 := boxed_item 4296 1]> ∅))
               (g_hash_table_new_full 5 6 7));
     key_hash := 5; key_equal := 6; key_notify := 7;
     value_type := G_TYPE_BOXED; name := None |}.

(** The same configuration before the first add. *)
Definition boxed_unallocated : GskResourceCachePrivate (Key := Z) :=
  {| resources := None; key_hash := 5; key_equal := 6; key_notify := 7;
     value_type := G_TYPE_BOXED; name := None |}.

End Examples.

(** ** Properties *)

Section Properties.
Context {Key : Type} `{Countable Key} {TS : GTypeSystem}.

Implicit Types (priv : GskResourceCachePrivate (Key := Key)).
Implicit Types (tbl : GHashTable (Key := Key)).
Implicit Types (m : gmap Key ResourceCacheItem) (item : ResourceCacheItem).
Implicit Types (key : Key) (v : gpointer).

(** *** Wrap-around *)

Lemma gint64_in_range z : G_MININT64 ≤ z ≤ G_MAXINT64 → gint64 z = z.
Proof.
  unfold gint64, wrap_signed, G_MININT64, G_MAXINT64. intros Hz.
  rewrite Z.mod_small; lia.
Qed.

Lemma int_in_range z : - 2 ^ 31 ≤ z ≤ G_MAXINT → int z = z.
Proof.
  unfold int, wrap_signed, G_MAXINT. intros Hz.
  rewrite Z.mod_small; lia.
Qed.

Lemma int_add_l a b : int (int a + b) = int (a + b).
Proof.
  unfold int, wrap_signed.
  generalize (2 ^ (32 - 1)) (2 ^ 32). intros h M.
  replace ((a + h) mod M - h + b + h) with ((a + h) mod M + b) by lia.
  rewrite Zplus_mod_idemp_l. f_equal. f_equal. lia.
Qed.

Lemma int_idemp a : int (int a) = int a.
Proof. pose proof (int_add_l a 0) as E. by rewrite !Z.add_0_r in E. Qed.

(** *** The collection loop *)

Lemma collect_loop_acc d (l : list (Key * ResourceCacheItem)) m res evs :
  NoDup l.*1 →
  (∀ key item, (key, item) ∈ l → m !! key = Some item) →
  int res = res →
  ∃ m' evs',
    foldl (collect_step d) (m, res, evs) l = (m', int (res + Z.of_nat (stale l)), evs')
    ∧ (∀ key item, (key, item) ∈ l → age item = 0 → m' !! key = None)
    ∧ (∀ key item, (key, item) ∈ l → age item ≠ 0 →
         m' !! key = Some (set_age (gint64 (age item - 1)) item))
    ∧ (∀ key, key ∉ l.*1 → m' !! key = m !! key)
    ∧ (size m' + stale l = size m)%nat.
Proof.
  revert m res evs.
  induction l as [|[k0 it0] l IH]; intros m res evs Hnd Hin Hres.
  - exists m, evs. cbn. rewrite Z.add_0_r, Hres.
    repeat split; try done; intros ?? Hel; by apply elem_of_nil in Hel.
  - cbn [fmap list_fmap fst] in Hnd. apply NoDup_cons in Hnd as [Hk0 Hnd].
    assert (Hm0 : m !! k0 = Some it0) by (apply Hin; left).
    assert (Hrest : ∀ key item, (key, item) ∈ l → key ≠ k0).
    { intros key item Hel ->. apply Hk0. apply list_elem_of_fmap.
      by exists (k0, item). }
    cbn [foldl]. unfold collect_step at 2. cbn [fst snd].
    destruct (age it0 =? 0) eqn:Hage.
    + apply Z.eqb_eq in Hage.
      destruct (IH (delete k0 m) (int (res + 1))
                  (evs ++ g_hash_table_iter_remove d k0 it0)) as
        (m' & evs' & Hfold & Hzero & Hpos & Hother & Hsize).
      * done.
      * intros key item Hel. rewrite lookup_delete_ne by (symmetry; eauto).
        apply Hin. by right.
      * apply int_idemp.
      * exists m', evs'. split; [|split; [|split; [|split]]].
        -- rewrite Hfold. f_equal. f_equal. rewrite int_add_l. f_equal.
           unfold stale. rewrite filter_cons_True by done. cbn [length]. lia.
        -- intros key item Hel Ha. apply elem_of_cons in Hel as [Heq|Hel]; [|eauto].
           inversion Heq; subst. rewrite Hother by done. apply lookup_delete_eq.
        -- intros key item Hel Ha. apply elem_of_cons in Hel as [Heq|Hel]; [|eauto].
           inversion Heq; subst. done.
        -- intros key Hkey. cbn [fmap list_fmap fst] in Hkey.
           apply not_elem_of_cons in Hkey as [Hne Hkey].
           rewrite Hother by done. by apply lookup_delete_ne.
        -- unfold stale in *. rewrite filter_cons_True by done. cbn [length].
           rewrite map_size_delete_Some in Hsize by eauto.
           assert (size m ≠ 0%nat).
           { apply map_size_ne_0_lookup. eauto. }
           lia.
    + apply Z.eqb_neq in Hage.
      destruct (IH (<[k0 := set_age (gint64 (age it0 - 1)) it0]> m) res evs) as
        (m' & evs' & Hfold & Hzero & Hpos & Hother & Hsize).
      * done.
      * intros key item Hel. rewrite lookup_insert_ne by (symmetry; eauto).
        apply Hin. by right.
      * done.
      * exists m', evs'. split; [|split; [|split; [|split]]].
        -- rewrite Hfold. f_equal. f_equal. f_equal.
           unfold stale. by rewrite filter_cons_False by done.
        -- intros key item Hel Ha. apply elem_of_cons in Hel as [Heq|Hel]; [|eauto].
           inversion Heq; subst. done.
        -- intros key item Hel Ha. apply elem_of_cons in Hel as [Heq|Hel]; [|eauto].
           inversion Heq; subst. rewrite Hother by done. apply lookup_insert_eq.
        -- intros key Hkey. cbn [fmap list_fmap fst] in Hkey.
           apply not_elem_of_cons in Hkey as [Hne Hkey].
           rewrite Hother by done. by apply lookup_insert_ne.
        -- unfold stale in *. rewrite filter_cons_False by done.
           rewrite map_size_insert_Some in Hsize by eauto. done.
Qed.

(** *** The operations, read through [items] and [config] *)

Lemma item_new_supported ty v :
  supported_value_type ty = true →
  ∃ item evs, resource_cache_item_new (Key := Key) ty v = (Some item, evs)
    ∧ item_value_type item = ty ∧ age item = 1 ∧ last_access_time item = 0
    ∧ (G_TYPE_FUNDAMENTAL ty = G_TYPE_POINTER → value item = v ∧ evs = [])
    ∧ (G_TYPE_FUNDAMENTAL ty = G_TYPE_BOXED → v ≠ NULL →
         value item = g_boxed_copy ty v ∧ evs = [BoxedCopy ty v])
    ∧ (G_TYPE_FUNDAMENTAL ty = G_TYPE_OBJECT → v ≠ NULL →
         value item = v ∧ evs = [ObjectRef v])
    ∧ (G_TYPE_FUNDAMENTAL ty ≠ G_TYPE_POINTER → v = NULL →
         value item = NULL ∧ evs = []).
Proof.
  unfold supported_value_type, resource_cache_item_new. intros Hs.
  apply andb_true_iff in Hs as [Hinv Hs]. apply negb_true_iff in Hinv.
  rewrite Hinv.
  assert (HPB : G_TYPE_POINTER ≠ G_TYPE_BOXED) by (vm_compute; congruence).
  assert (HPO : G_TYPE_POINTER ≠ G_TYPE_OBJECT) by (vm_compute; congruence).
  assert (HBO : G_TYPE_BOXED ≠ G_TYPE_OBJECT) by (vm_compute; congruence).
  destruct (Z.eqb_spec (G_TYPE_FUNDAMENTAL ty) G_TYPE_POINTER) as [Hp|Hp].
  { eexists _, _. split; [reflexivity|]. cbn. repeat split; congruence. }
  destruct (Z.eqb_spec (G_TYPE_FUNDAMENTAL ty) G_TYPE_BOXED) as [Hb|Hb].
  { destruct (Z.eqb_spec v NULL) as [Hv|Hv];
      (eexists _, _; split; [reflexivity|]); cbn; repeat split; congruence. }
  destruct (Z.eqb_spec (G_TYPE_FUNDAMENTAL ty) G_TYPE_OBJECT) as [Ho|Ho]; [|done].
  destruct (Z.eqb_spec v NULL) as [Hv|Hv];
    (eexists _, _; split; [reflexivity|]); cbn; repeat split; congruence.
Qed.

Lemma add_item_config priv key v :
  config (post (gsk_resource_cache_add_item priv key v)) = config priv.
Proof.
  unfold gsk_resource_cache_add_item.
  destruct (g_hash_table_lookup _ key); [done|].
  by destruct (resource_cache_item_new _ v) as [[?|] ?].
Qed.

Lemma add_item_allocates priv key v :
  is_Some (resources (post (gsk_resource_cache_add_item priv key v))).
Proof.
  unfold gsk_resource_cache_add_item.
  destruct (g_hash_table_lookup _ key); [by eexists|].
  by destruct (resource_cache_item_new _ v) as [[?|] ?]; eexists.
Qed.

Lemma add_item_present priv key v item :
  items priv !! key = Some item →
  items (post (gsk_resource_cache_add_item priv key v))
    = <[key := set_age (gint64 (age item + 1)) item]> (items priv)
  ∧ emitted (gsk_resource_cache_add_item priv key v) = [].
Proof.
  unfold gsk_resource_cache_add_item, items, g_hash_table_lookup.
  destruct (resources priv) as [tbl|]; cbn; [|by rewrite lookup_empty].
  by intros ->.
Qed.

Lemma add_item_absent priv key v :
  items priv !! key = None →
  items (post (gsk_resource_cache_add_item priv key v))
    = match (resource_cache_item_new (Key := Key) (value_type priv) v).1 with
      | Some item => <[key := item]> (items priv)
      | None => items priv
      end
  ∧ emitted (gsk_resource_cache_add_item priv key v)
    = (resource_cache_item_new (value_type priv) v).2.
Proof.
  unfold gsk_resource_cache_add_item, items, g_hash_table_lookup.
  destruct (resources priv) as [tbl|]; cbn.
  - intros ->. by destruct (resource_cache_item_new _ v) as [[?|] ?].
  - intros _. rewrite lookup_empty.
    by destruct (resource_cache_item_new _ v) as [[?|] ?].
Qed.

Lemma has_item_spec priv key :
  ret (gsk_resource_cache_has_item priv key) = bool_decide (is_Some (items priv !! key))
  ∧ post (gsk_resource_cache_has_item priv key) = priv
  ∧ emitted (gsk_resource_cache_has_item priv key) = [].
Proof.
  unfold gsk_resource_cache_has_item, items, g_hash_table_lookup.
  destruct (resources priv) as [tbl|]; cbn; [done|].
  rewrite lookup_empty. by repeat split.
Qed.

Lemma get_item_hit priv key now item :
  items priv !! key = Some item →
  ret (gsk_resource_cache_get_item priv key now) = value item
  ∧ items (post (gsk_resource_cache_get_item priv key now))
      = <[key := set_last_access_time now item]> (items priv)
  ∧ config (post (gsk_resource_cache_get_item priv key now)) = config priv
  ∧ emitted (gsk_resource_cache_get_item priv key now) = [].
Proof.
  unfold gsk_resource_cache_get_item, items, g_hash_table_lookup.
  destruct (resources priv) as [tbl|]; cbn; [|by rewrite lookup_empty].
  by intros ->.
Qed.

Lemma get_item_miss priv key now :
  items priv !! key = None →
  ret (gsk_resource_cache_get_item priv key now) = NULL
  ∧ post (gsk_resource_cache_get_item priv key now) = priv
  ∧ emitted (gsk_resource_cache_get_item priv key now) = [].
Proof.
  unfold gsk_resource_cache_get_item, items, g_hash_table_lookup.
  destruct (resources priv) as [tbl|]; cbn; [|done].
  by intros ->.
Qed.

Lemma invalidate_item_miss priv key :
  items priv !! key = None →
  ret (gsk_resource_cache_invalidate_item priv key) = false
  ∧ post (gsk_resource_cache_invalidate_item priv key) = priv
  ∧ emitted (gsk_resource_cache_invalidate_item priv key) = [].
Proof.
  unfold gsk_resource_cache_invalidate_item, items, g_hash_table_lookup.
  destruct (resources priv) as [tbl|]; cbn; [|done].
  by intros ->.
Qed.

Lemma invalidate_item_hit priv key item :
  items priv !! key = Some item →
  let a := gint64 (age item - 1) in
  ret (gsk_resource_cache_invalidate_item priv key) = true
  ∧ items (post (gsk_resource_cache_invalidate_item priv key))
      = <[key := set_age (if a <? 0 then 0 else a) item]> (items priv)
  ∧ config (post (gsk_resource_cache_invalidate_item priv key)) = config priv
  ∧ emitted (gsk_resource_cache_invalidate_item priv key)
      = (if a <? 0 then [Critical (TooManyInvalidations (value_type priv))] else []).
Proof.
  unfold gsk_resource_cache_invalidate_item, items, g_hash_table_lookup.
  destruct (resources priv) as [tbl|]; cbn; [|by rewrite lookup_empty].
  intros ->. by destruct (gint64 (age item - 1) <? 0).
Qed.

Lemma collect_items_canonical priv :
  gsk_resource_cache_collect_items priv
    = collect_items_in (map_to_list (items priv)) priv
  ∧ visits (map_to_list (items priv)) priv.
Proof.
  split; [|unfold visits; reflexivity].
  unfold gsk_resource_cache_collect_items, collect_items_in, items.
  by destruct (resources priv).
Qed.

Lemma stale_visits order priv :
  visits order priv → stale order = stale (map_to_list (items priv)).
Proof. unfold visits, stale. by intros ->. Qed.

Lemma collect_items_spec priv order :
  visits order priv →
  items (post (collect_items_in order priv)) = omap survivor (items priv)
  ∧ ret (collect_items_in order priv) = int (Z.of_nat (stale (map_to_list (items priv))))
  ∧ (size (items (post (collect_items_in order priv)))
       + stale (map_to_list (items priv)) = size (items priv))%nat
  ∧ config (post (collect_items_in order priv)) = config priv.
Proof.
  intros Hv. pose proof (stale_visits _ _ Hv) as Hstale. revert Hv Hstale.
  unfold visits, collect_items_in, items.
  destruct (resources priv) as [tbl|] eqn:Hres; cbn [post ret].
  - intros Hv Hstale.
    destruct (collect_loop_acc (key_destroy_func tbl) order (entries tbl) 0 []) as
      (m' & evs' & Hfold & Hzero & Hpos & Hother & Hsize).
    + rewrite Hv. apply NoDup_fst_map_to_list.
    + intros key item. rewrite Hv. apply elem_of_map_to_list.
    + done.
    + unfold collect_loop. rewrite Hfold. cbn.
      rewrite Hstale in Hsize |- *. repeat split; [|done].
      apply map_eq. intros i. rewrite lookup_omap.
      destruct (entries tbl !! i) as [item|] eqn:Hi; cbn.
      * assert ((i, item) ∈ order) as Hel by (rewrite Hv; by apply elem_of_map_to_list).
        unfold survivor. destruct (Z.eqb_spec (age item) 0); eauto.
      * rewrite Hother; [done|]. intros Hel.
        apply list_elem_of_fmap in Hel as [[k item] [-> Hel]].
        rewrite Hv in Hel. apply elem_of_map_to_list in Hel. cbn in Hi. congruence.
  - intros _ _. rewrite Hres, omap_empty, map_to_list_empty, map_size_empty.
    by repeat split.
Qed.

(** *** Collection *)

(** C3. A collection sweep, in whatever order the iterator visits the
    table, removes exactly the entries whose age is 0, lowers the age of
    every other entry by 1 and touches nothing else, and returns the
    number of entries it removed; the traversal order changes neither
    the resulting entries nor the count.  Ages are [gint64] values above
    [G_MININT64] and the table has at most [G_MAXINT] entries, so that
    neither [age -= 1] nor [res += 1] overflows. *)
Theorem collect_items_sweep priv order :
  visits order priv →
  map_Forall (λ _ item, G_MININT64 < age item ≤ G_MAXINT64) (items priv) →
  Z.of_nat (size (items priv)) ≤ G_MAXINT →
  let o := collect_items_in order priv in
  (∀ key item, items priv !! key = Some item → age item = 0 →
     items (post o) !! key = None)
  ∧ (∀ key item, items priv !! key = Some item → age item ≠ 0 →
       items (post o) !! key = Some (set_age (age item - 1) item))
  ∧ (∀ key, items priv !! key = None → items (post o) !! key = None)
  ∧ ret o = Z.of_nat (stale (map_to_list (items priv)))
  ∧ ret o = Z.of_nat (size (items priv)) - Z.of_nat (size (items (post o)))
  ∧ config (post o) = config priv
  ∧ ret (gsk_resource_cache_collect_items priv) = ret o
  ∧ items (post (gsk_resource_cache_collect_items priv)) = items (post o).
Proof.
  intros Hv Hages Hsize o.
  destruct (collect_items_spec priv order Hv) as (Hitems & Hret & Hsz & Hcfg).
  destruct (collect_items_canonical priv) as [Hcanon Hv'].
  destruct (collect_items_spec priv _ Hv') as (Hitems' & Hret' & _ & _).
  fold o in Hitems, Hret, Hsz, Hcfg.
  assert (Hcount : ret o = Z.of_nat (stale (map_to_list (items priv)))).
  { rewrite Hret. apply int_in_range. unfold G_MAXINT in *. lia. }
  split; [|split; [|split; [|split; [|split; [|split; [|split]]]]]].
  - intros key item Hkey Hage. rewrite Hitems, lookup_omap, Hkey. cbn.
    unfold survivor. by rewrite Hage.
  - intros key item Hkey Hage. rewrite Hitems, lookup_omap, Hkey. cbn.
    unfold survivor. destruct (Z.eqb_spec (age item) 0); [done|].
    pose proof (map_Forall_lookup_1 _ _ _ _ Hages Hkey) as Hrange. cbn in Hrange.
    rewrite gint64_in_range; [done|lia].
  - intros key Hkey. by rewrite Hitems, lookup_omap, Hkey.
  - done.
  - rewrite Hcount. lia.
  - done.
  - rewrite Hcanon, Hret'. by rewrite Hret.
  - rewrite Hcanon, Hitems'. by rewrite Hitems.
Qed.

Lemma add_item_fresh priv key v :
  supported_value_type (value_type priv) = true →
  items priv !! key = None →
  ∃ item,
    (resource_cache_item_new (Key := Key) (value_type priv) v).1 = Some item
    ∧ age item = 1
    ∧ items (post (gsk_resource_cache_add_item priv key v)) = <[key := item]> (items priv).
Proof.
  intros Hty Hkey.
  destruct (item_new_supported (value_type priv) v Hty) as (item & evs & Hnew & _ & Hage & _).
  destruct (add_item_absent priv key v Hkey) as [Hitems _].
  rewrite Hnew in Hitems. exists item. by rewrite Hnew.
Qed.

(** C2. A key that is absent from a cache with a supported value type
    enters the cache with age 1: the entry is still there after one
    collection sweep and gone after a second one. *)
Theorem fresh_entry_grace_period priv key v order1 order2 :
  supported_value_type (value_type priv) = true →
  items priv !! key = None →
  let s0 := post (gsk_resource_cache_add_item priv key v) in
  let s1 := post (collect_items_in order1 s0) in
  let s2 := post (collect_items_in order2 s1) in
  visits order1 s0 →
  visits order2 s1 →
  (∃ item, items s0 !! key = Some item ∧ age item = 1)
  ∧ ret (gsk_resource_cache_has_item s0 key) = true
  ∧ ret (gsk_resource_cache_has_item s1 key) = true
  ∧ ret (gsk_resource_cache_has_item s2 key) = false.
Proof.
  intros Hty Hkey s0 s1 s2 Hv1 Hv2.
  destruct (add_item_fresh priv key v Hty Hkey) as (item & _ & Hage & Hs0).
  fold s0 in Hs0.
  destruct (collect_items_spec s0 order1 Hv1) as (Hs1 & _). fold s1 in Hs1.
  destruct (collect_items_spec s1 order2 Hv2) as (Hs2 & _). fold s2 in Hs2.
  assert (H0 : items s0 !! key = Some item) by (rewrite Hs0; apply lookup_insert_eq).
  assert (H1 : items s1 !! key = Some (set_age 0 item)).
  { rewrite Hs1, lookup_omap, H0. cbn. unfold survivor. by rewrite Hage. }
  assert (H2 : items s2 !! key = None).
  { by rewrite Hs2, lookup_omap, H1. }
  split; [by exists item|].
  rewrite !(proj1 (has_item_spec _ _)), H0, H1, H2. by repeat split.
Qed.

(** *** Adding *)

(** C1. Adding a key that is already in the cache raises the age of its
    entry by exactly 1 (below [G_MAXINT64], where [age += 1] does not
    overflow), changes nothing else, reads none of the new value and
    emits nothing.  In particular, when [key] is absent from a cache with
    a supported value type, add (key, v1) followed by add (key, v2)
    leaves the entry built from [v1], at age 2, and get returns its
    value. *)
Theorem add_item_existing_key priv key v1 v2 now :
  (∀ item, items priv !! key = Some item →
     G_MININT64 ≤ age item < G_MAXINT64 →
     let o := gsk_resource_cache_add_item priv key v2 in
     items (post o) = <[key := set_age (age item + 1) item]> (items priv)
     ∧ config (post o) = config priv
     ∧ emitted o = []
     ∧ ret (gsk_resource_cache_get_item (post o) key now) = value item)
  ∧ (supported_value_type (value_type priv) = true →
     items priv !! key = None →
     let s1 := post (gsk_resource_cache_add_item priv key v1) in
     let s2 := post (gsk_resource_cache_add_item s1 key v2) in
     ∃ item,
       (resource_cache_item_new (Key := Key) (value_type priv) v1).1 = Some item
       ∧ items s1 = <[key := item]> (items priv)
       ∧ items s2 = <[key := set_age 2 item]> (items priv)
       ∧ emitted (gsk_resource_cache_add_item s1 key v2) = []
       ∧ ret (gsk_resource_cache_get_item s2 key now) = value item).
Proof.
  assert (Hbump : ∀ p item, items p !! key = Some item →
            G_MININT64 ≤ age item < G_MAXINT64 →
            items (post (gsk_resource_cache_add_item p key v2))
              = <[key := set_age (age item + 1) item]> (items p)
            ∧ config (post (gsk_resource_cache_add_item p key v2)) = config p
            ∧ emitted (gsk_resource_cache_add_item p key v2) = []
            ∧ ret (gsk_resource_cache_get_item
                     (post (gsk_resource_cache_add_item p key v2)) key now) = value item).
  { intros p item Hkey Hage.
    destruct (add_item_present p key v2 item Hkey) as [Hitems Hev].
    rewrite gint64_in_range in Hitems by (unfold G_MININT64, G_MAXINT64 in *; lia).
    repeat split; [done|apply add_item_config|done|].
    eapply (get_item_hit _ key now (set_age (age item + 1) item)).
    rewrite Hitems. apply lookup_insert_eq. }
  split; [intros item Hkey Hage; by apply Hbump|].
  intros Hty Hkey s1 s2.
  destruct (add_item_fresh priv key v1 Hty Hkey) as (item & Hnew & Hage & Hs1).
  fold s1 in Hs1. exists item.
  destruct (Hbump s1 item) as (Hs2 & _ & Hev & Hget).
  { rewrite Hs1. apply lookup_insert_eq. }
  { rewrite Hage. unfold G_MININT64, G_MAXINT64. lia. }
  fold s2 in Hs2, Hget. rewrite Hage in Hs2. cbn in Hs2.
  rewrite Hs1, insert_insert_eq in Hs2. done.
Qed.

(** *** Invalidating *)

(** C4. Invalidation returns true exactly when the key is present.  On
    an absent key it changes nothing.  On a present key it keeps every
    entry of the table in place, lowers the age of the entry by 1 when
    the age is positive, and leaves it at 0 with one diagnostic when it
    is already 0.  In particular, after add on an absent key and two
    invalidations the entry is in the table with age 0, the other
    entries being as before. *)
Theorem invalidate_item_clamps priv key :
  let o := gsk_resource_cache_invalidate_item priv key in
  ret o = bool_decide (is_Some (items priv !! key))
  ∧ (∀ key', is_Some (items (post o) !! key') ↔ is_Some (items priv !! key'))
  ∧ (items priv !! key = None → post o = priv ∧ emitted o = [])
  ∧ (∀ item, items priv !! key = Some item → 0 ≤ age item ≤ G_MAXINT64 →
       items (post o)
         = <[key := set_age (if age item =? 0 then 0 else age item - 1) item]> (items priv)
       ∧ config (post o) = config priv
       ∧ emitted o = (if age item =? 0
                      then [Critical (TooManyInvalidations (value_type priv))]
                      else []))
  ∧ (∀ v, supported_value_type (value_type priv) = true →
       items priv !! key = None →
       let s1 := post (gsk_resource_cache_add_item priv key v) in
       let s2 := post (gsk_resource_cache_invalidate_item s1 key) in
       let s3 := post (gsk_resource_cache_invalidate_item s2 key) in
       ∃ item,
         items s1 = <[key := item]> (items priv) ∧ age item = 1
         ∧ items s2 = <[key := set_age 0 item]> (items priv)
         ∧ emitted (gsk_resource_cache_invalidate_item s1 key) = []
         ∧ items s3 = <[key := set_age 0 item]> (items priv)
         ∧ emitted (gsk_resource_cache_invalidate_item s2 key)
             = [Critical (TooManyInvalidations (value_type priv))]).
Proof.
  assert (Hhit : ∀ p item, items p !! key = Some item → 0 ≤ age item ≤ G_MAXINT64 →
            items (post (gsk_resource_cache_invalidate_item p key))
              = <[key := set_age (if age item =? 0 then 0 else age item - 1) item]> (items p)
            ∧ config (post (gsk_resource_cache_invalidate_item p key)) = config p
            ∧ emitted (gsk_resource_cache_invalidate_item p key)
                = (if age item =? 0
                   then [Critical (TooManyInvalidations (value_type p))]
                   else [])).
  { intros p item Hkey Hage.
    destruct (invalidate_item_hit p key item Hkey) as (_ & Hitems & Hcfg & Hev).
    cbn zeta in Hitems, Hev.
    rewrite gint64_in_range in Hitems, Hev by (unfold G_MININT64, G_MAXINT64 in *; lia).
    destruct (Z.eqb_spec (age item) 0) as [Hz|Hz].
    - rewrite Hz in Hitems, Hev. done.
    - destruct (Z.ltb_spec (age item - 1) 0); [lia|done]. }
  intros o. subst o.
  split; [|split; [|split; [|split]]].
  - destruct (items priv !! key) as [item|] eqn:Hkey.
    + by rewrite (proj1 (invalidate_item_hit priv key item Hkey)).
    + by rewrite (proj1 (invalidate_item_miss priv key Hkey)).
  - intros key'. destruct (items priv !! key) as [item|] eqn:Hkey.
    + destruct (invalidate_item_hit priv key item Hkey) as (_ & -> & _).
      destruct (decide (key = key')) as [<-|Hne].
      * rewrite lookup_insert_eq, Hkey. split; eauto.
      * by rewrite lookup_insert_ne.
    + by destruct (invalidate_item_miss priv key Hkey) as (_ & -> & _).
  - intros Hkey. by destruct (invalidate_item_miss priv key Hkey) as (_ & -> & ->).
  - intros item Hkey Hage. by apply Hhit.
  - intros v Hty Hkey s1 s2 s3.
    destruct (add_item_fresh priv key v Hty Hkey) as (item & _ & Hage & Hs1).
    fold s1 in Hs1. exists item.
    assert (Hty1 : value_type s1 = value_type priv).
    { pose proof (add_item_config priv key v) as Hcfg. fold s1 in Hcfg.
      unfold config in Hcfg. congruence. }
    destruct (Hhit s1 item) as (Hs2 & Hcfg2 & Hev2).
    { rewrite Hs1. apply lookup_insert_eq. }
    { rewrite Hage. unfold G_MAXINT64. lia. }
    fold s2 in Hs2, Hcfg2. rewrite Hage in Hs2, Hev2. cbn in Hs2, Hev2.
    rewrite Hs1, insert_insert_eq in Hs2.
    assert (Hty2 : value_type s2 = value_type priv).
    { unfold config in Hcfg2. congruence. }
    destruct (Hhit s2 (set_age 0 item)) as (Hs3 & _ & Hev3).
    { rewrite Hs2. apply lookup_insert_eq. }
    { cbn. unfold G_MAXINT64. lia. }
    fold s3 in Hs3. cbn in Hs3, Hev3. rewrite Hs2, insert_insert_eq in Hs3.
    rewrite Hty2 in Hev3. done.
Qed.

(** *** Looking up *)

Lemma forget_time_get priv key now :
  set_last_access_time 0 <$> items (post (gsk_resource_cache_get_item priv key now))
    = set_last_access_time 0 <$> items priv.
Proof.
  destruct (items priv !! key) as [item|] eqn:Hkey.
  - destruct (get_item_hit priv key now item Hkey) as (_ & -> & _).
    rewrite fmap_insert. apply insert_id. by rewrite lookup_fmap, Hkey.
  - by destruct (get_item_miss priv key now Hkey) as (_ & -> & _).
Qed.

Lemma forget_time_get_repeatedly key times priv :
  set_last_access_time 0 <$> items (get_repeatedly key times priv)
    = set_last_access_time 0 <$> items priv.
Proof.
  revert priv. induction times as [|now times IH]; intros priv; [done|].
  cbn. unfold get_repeatedly in IH. rewrite IH. apply forget_time_get.
Qed.

Lemma forget_time_survivor m1 m2 :
  set_last_access_time 0 <$> m1 = set_last_access_time 0 <$> m2 →
  set_last_access_time 0 <$> omap survivor m1
    = set_last_access_time 0 <$> omap survivor m2.
Proof.
  intros Heq. apply map_eq. intros i.
  assert (Hi : (set_last_access_time 0 <$> m1) !! i = (set_last_access_time 0 <$> m2) !! i)
    by (by rewrite Heq).
  rewrite !lookup_fmap in Hi. rewrite !lookup_fmap, !lookup_omap.
  destruct (m1 !! i) as [i1|], (m2 !! i) as [i2|]; try done. cbn in *.
  injection Hi as Hty Hval Hage. unfold survivor. rewrite Hage.
  destruct (age i2 =? 0); [done|]. cbn. unfold set_last_access_time, set_age. cbn.
  by rewrite Hty, Hval.
Qed.

(** C6. On a hit, get returns the stored value and stamps the entry
    with the current time, leaving every other field and entry alone;
    on a miss (the key is absent, or the table was never allocated) it
    returns [NULL] and changes nothing.  No call changes an age, so a
    collection sweep after any number of gets on a key returns the same
    count and leaves the same entries, up to their time stamps, as the
    sweep without them. *)
Theorem get_item_keeps_age priv key now :
  let o := gsk_resource_cache_get_item priv key now in
  (∀ item, items priv !! key = Some item →
     ret o = value item
     ∧ items (post o) = <[key := set_last_access_time now item]> (items priv)
     ∧ config (post o) = config priv
     ∧ emitted o = [])
  ∧ (items priv !! key = None → ret o = NULL ∧ post o = priv ∧ emitted o = [])
  ∧ (resources priv = None → ret o = NULL ∧ post o = priv ∧ emitted o = [])
  ∧ age <$> items (post o) = age <$> items priv
  ∧ (∀ times order order',
       visits order priv →
       visits order' (get_repeatedly key times priv) →
       ret (collect_items_in order' (get_repeatedly key times priv))
         = ret (collect_items_in order priv)
       ∧ set_last_access_time 0
           <$> items (post (collect_items_in order' (get_repeatedly key times priv)))
         = set_last_access_time 0 <$> items (post (collect_items_in order priv))).
Proof.
  intros o. subst o. split; [|split; [|split; [|split]]].
  - intros item Hkey. by apply get_item_hit.
  - intros Hkey. by apply get_item_miss.
  - intros Hres. apply get_item_miss. unfold items. by rewrite Hres.
  - destruct (items priv !! key) as [item|] eqn:Hkey.
    + destruct (get_item_hit priv key now item Hkey) as (_ & -> & _).
      rewrite fmap_insert. apply insert_id. by rewrite lookup_fmap, Hkey.
    + by destruct (get_item_miss priv key now Hkey) as (_ & -> & _).
  - intros times order order' Hv Hv'.
    pose proof (forget_time_get_repeatedly key times priv) as Hsame.
    destruct (collect_items_spec _ _ Hv) as (Hitems & Hret & Hsize & _).
    destruct (collect_items_spec _ _ Hv') as (Hitems' & Hret' & Hsize' & _).
    pose proof (forget_time_survivor _ _ Hsame) as Hsurv.
    rewrite <- Hitems, <- Hitems' in Hsurv. split; [|done].
    rewrite Hret, Hret'. do 2 f_equal.
    apply (f_equal size) in Hsame, Hsurv. rewrite !map_size_fmap in Hsame, Hsurv.
    lia.
Qed.

(** C10. With a boxed or object value type, adding an absent key with a
    [NULL] value inserts an entry whose value is [NULL], without any
    call to [g_boxed_copy] or [g_object_ref]; has then returns true and
    get returns [NULL], which is also what get returns for a key that is
    absent. *)
Theorem add_item_null_value priv key now :
  value_type priv ≠ G_TYPE_INVALID →
  G_TYPE_FUNDAMENTAL (value_type priv) = G_TYPE_BOXED
    ∨ G_TYPE_FUNDAMENTAL (value_type priv) = G_TYPE_OBJECT →
  items priv !! key = None →
  let o := gsk_resource_cache_add_item priv key NULL in
  emitted o = []
  ∧ (∃ item, items (post o) = <[key := item]> (items priv)
       ∧ value item = NULL ∧ age item = 1)
  ∧ ret (gsk_resource_cache_has_item (post o) key) = true
  ∧ ret (gsk_resource_cache_get_item (post o) key now) = NULL
  ∧ (∀ key', items (post o) !! key' = None →
       ret (gsk_resource_cache_has_item (post o) key') = false
       ∧ ret (gsk_resource_cache_get_item (post o) key' now) = NULL).
Proof.
  intros Hinv Hkind Hkey o.
  assert (Hty : supported_value_type (value_type priv) = true).
  { unfold supported_value_type. apply andb_true_iff. split.
    - apply negb_true_iff. by apply Z.eqb_neq.
    - destruct Hkind as [-> | ->]; by vm_compute. }
  assert (Hnp : G_TYPE_FUNDAMENTAL (value_type priv) ≠ G_TYPE_POINTER).
  { destruct Hkind as [-> | ->]; by vm_compute. }
  destruct (item_new_supported (value_type priv) NULL Hty) as
    (item & evs & Hnew & _ & Hage & _ & _ & _ & _ & Hnull).
  destruct (Hnull Hnp eq_refl) as [Hval ->].
  destruct (add_item_absent priv key NULL Hkey) as [Hitems Hev].
  rewrite Hnew in Hitems, Hev. cbn in Hitems, Hev. fold o in Hitems, Hev.
  assert (Hin : items (post o) !! key = Some item).
  { rewrite Hitems. apply lookup_insert_eq. }
  split; [done|]. split; [by exists item|].
  split; [by rewrite (proj1 (has_item_spec _ _)), Hin|].
  split; [by rewrite (proj1 (get_item_hit _ key now item Hin))|].
  intros key' Hkey'. split.
  - by rewrite (proj1 (has_item_spec _ _)), Hkey'.
  - by apply get_item_miss.
Qed.

(** *** Configuration *)

Lemma set_value_type_rejected priv ty :
  post (gsk_resource_cache_set_value_type priv ty) = priv
  ∧ emitted (gsk_resource_cache_set_value_type priv ty) ≠ [].
Proof.
  unfold gsk_resource_cache_set_value_type.
  destruct (resources priv); [done|].
  destruct (ty =? G_TYPE_INVALID); [done|].
  destruct (Z.eqb_spec (G_TYPE_FUNDAMENTAL ty) G_TYPE_POINTER) as [Hp|Hp]; [|done].
  destruct (Z.eqb_spec (G_TYPE_FUNDAMENTAL ty) G_TYPE_BOXED) as [Hb|Hb]; [|done].
  rewrite Hp in Hb. by vm_compute in Hb.
Qed.

Lemma setters_keep_items priv :
  (∀ f, items (post (gsk_resource_cache_set_hash_func priv f)) = items priv)
  ∧ (∀ f, items (post (gsk_resource_cache_set_equal_func priv f)) = items priv)
  ∧ (∀ f, items (post (gsk_resource_cache_set_free_func priv f)) = items priv)
  ∧ (∀ ty, items (post (gsk_resource_cache_set_value_type priv ty)) = items priv)
  ∧ (∀ n, items (post (gsk_resource_cache_set_name priv n)) = items priv).
Proof.
  repeat split; intros x; try by rewrite (proj1 (set_value_type_rejected _ _)).
  all: unfold gsk_resource_cache_set_hash_func, gsk_resource_cache_set_equal_func,
         gsk_resource_cache_set_free_func, gsk_resource_cache_set_name, items.
  all: destruct (resources priv) eqn:Hres; cbn; by rewrite ?Hres.
Qed.

Lemma setters_keep_value_type priv :
  (∀ f, value_type (post (gsk_resource_cache_set_hash_func priv f)) = value_type priv)
  ∧ (∀ f, value_type (post (gsk_resource_cache_set_equal_func priv f)) = value_type priv)
  ∧ (∀ f, value_type (post (gsk_resource_cache_set_free_func priv f)) = value_type priv)
  ∧ (∀ ty, value_type (post (gsk_resource_cache_set_value_type priv ty)) = value_type priv)
  ∧ (∀ n, value_type (post (gsk_resource_cache_set_name priv n)) = value_type priv).
Proof.
  repeat split; intros x; try by rewrite (proj1 (set_value_type_rejected _ _)).
  all: unfold gsk_resource_cache_set_hash_func, gsk_resource_cache_set_equal_func,
         gsk_resource_cache_set_free_func, gsk_resource_cache_set_name.
  all: by destruct (resources priv).
Qed.

(** *** Ages across calls *)

Lemma item_new_age ty v item evs :
  resource_cache_item_new (Key := Key) ty v = (Some item, evs) → age item = 1.
Proof.
  unfold resource_cache_item_new.
  repeat match goal with |- context [if ?b then _ else _] => destruct b end;
    intros [= <- _]; done.
Qed.

(** Without a value type nothing enters the cache. *)
Lemma call_keeps_empty priv priv' :
  call priv priv' →
  value_type priv = G_TYPE_INVALID → items priv = ∅ →
  value_type priv' = G_TYPE_INVALID ∧ items priv' = ∅.
Proof.
  destruct (setters_keep_items priv) as (Hi1 & Hi2 & Hi3 & Hi4 & Hi5).
  destruct (setters_keep_value_type priv) as (Ht1 & Ht2 & Ht3 & Ht4 & Ht5).
  intros Hcall Hty Hempty.
  assert (Hnone : ∀ key, items priv !! key = None)
    by (intros key; by rewrite Hempty, lookup_empty).
  destruct Hcall as [priv key v|priv key|priv key now|priv key|priv order Hv
                    |priv f|priv f|priv f|priv ty|priv n].
  - pose proof (add_item_config priv key v) as Hcfg.
    destruct (add_item_absent priv key v (Hnone key)) as [Hitems _].
    unfold resource_cache_item_new in Hitems. rewrite Hty, Z.eqb_refl in Hitems.
    cbn in Hitems.
    unfold config in Hcfg. split; congruence.
  - by rewrite (proj1 (proj2 (has_item_spec priv key))).
  - by rewrite (proj1 (proj2 (get_item_miss priv key now (Hnone key)))).
  - by rewrite (proj1 (proj2 (invalidate_item_miss priv key (Hnone key)))).
  - destruct (collect_items_spec priv order Hv) as (Hitems & _ & _ & Hcfg).
    rewrite Hitems, Hempty, omap_empty. unfold config in Hcfg. split; congruence.
  - by rewrite Hi1, Ht1.
  - by rewrite Hi2, Ht2.
  - by rewrite Hi3, Ht3.
  - by rewrite Hi4, Ht4.
  - by rewrite Hi5, Ht5.
Qed.

(** One call raises the largest age by at most 1 and lowers no age
    below 0. *)
Lemma call_ages_bounded priv priv' b :
  call priv priv' →
  0 ≤ b < G_MAXINT64 →
  map_Forall (λ _ item, 0 ≤ age item ≤ b) (items priv) →
  map_Forall (λ _ item, 0 ≤ age item ≤ b + 1) (items priv').
Proof.
  destruct (setters_keep_items priv) as (Hi1 & Hi2 & Hi3 & Hi4 & Hi5).
  intros Hcall Hb Hinv.
  assert (Hweak : map_Forall (λ _ item, 0 ≤ age item ≤ b + 1) (items priv)).
  { eapply map_Forall_impl; [exact Hinv|]. cbn. intros. lia. }
  destruct Hcall as [priv key v|priv key|priv key now|priv key|priv order Hv
                    |priv f|priv f|priv f|priv ty|priv n].
  - destruct (items priv !! key) as [item|] eqn:Hkey.
    + destruct (add_item_present priv key v item Hkey) as [-> _].
      pose proof (map_Forall_lookup_1 _ _ _ _ Hinv Hkey) as Hage. cbn in Hage.
      apply map_Forall_insert_2; [|done]. cbn.
      rewrite gint64_in_range by (unfold G_MININT64, G_MAXINT64 in *; lia). lia.
    + destruct (add_item_absent priv key v Hkey) as [-> _].
      destruct (resource_cache_item_new _ v) as [[item|] evs] eqn:Hnew; [|done].
      apply map_Forall_insert_2; [|done]. cbn.
      rewrite (item_new_age _ _ _ _ Hnew). lia.
  - by rewrite (proj1 (proj2 (has_item_spec priv key))).
  - destruct (items priv !! key) as [item|] eqn:Hkey.
    + destruct (get_item_hit priv key now item Hkey) as (_ & -> & _).
      apply map_Forall_insert_2; [|done].
      apply (map_Forall_lookup_1 _ _ _ _ Hweak Hkey).
    + by rewrite (proj1 (proj2 (get_item_miss priv key now Hkey))).
  - destruct (items priv !! key) as [item|] eqn:Hkey.
    + destruct (invalidate_item_hit priv key item Hkey) as (_ & -> & _).
      pose proof (map_Forall_lookup_1 _ _ _ _ Hinv Hkey) as Hage. cbn in Hage.
      apply map_Forall_insert_2; [|done]. cbn.
      rewrite gint64_in_range by (unfold G_MININT64, G_MAXINT64 in *; lia).
      destruct (Z.ltb_spec (age item - 1) 0); lia.
    + by rewrite (proj1 (proj2 (invalidate_item_miss priv key Hkey))).
  - destruct (collect_items_spec priv order Hv) as (-> & _).
    intros key item' Hkey. apply lookup_omap_Some in Hkey as (item & Hsurv & Hkey).
    pose proof (map_Forall_lookup_1 _ _ _ _ Hinv Hkey) as Hage. cbn in Hage.
    unfold survivor in Hsurv. destruct (Z.eqb_spec (age item) 0); [done|].
    injection Hsurv as <-. cbn.
    rewrite gint64_in_range by (unfold G_MININT64, G_MAXINT64 in *; lia). lia.
  - by rewrite Hi1.
  - by rewrite Hi2.
  - by rewrite Hi3.
  - by rewrite Hi4.
  - by rewrite Hi5.
Qed.

Lemma calls_ages_bounded n priv priv' b :
  nsteps call n priv priv' →
  0 ≤ b → b + Z.of_nat n ≤ G_MAXINT64 →
  map_Forall (λ _ item, 0 ≤ age item ≤ b) (items priv) →
  map_Forall (λ _ item, 0 ≤ age item ≤ b + Z.of_nat n) (items priv').
Proof.
  intros Hsteps. revert b.
  induction Hsteps as [priv|n priv priv1 priv' Hcall Hsteps IH]; intros b Hb Hmax Hinv.
  - by rewrite Z.add_0_r.
  - replace (b + Z.of_nat (S n)) with (b + 1 + Z.of_nat n) in * by lia.
    apply IH; [lia|lia|].
    eapply call_ages_bounded; [exact Hcall|unfold G_MAXINT64 in *; lia|done].
Qed.

(** C5. No call of the interface (the five operations and the five
    setters, in any order and number) produces an entry of negative age.
    From a freshly constructed cache this holds after any finite
    sequence of calls.  It also holds from any cache whose table is not
    yet allocated, whatever its configuration, where after [n] calls,
    [n] at most [G_MAXINT64], every age lies between 0 and [n]. *)
Theorem age_never_negative :
  (∀ n priv,
     rtc call (constructed n) priv →
     map_Forall (λ _ item, 0 ≤ age item) (items priv))
  ∧ (∀ priv0 n priv,
       resources priv0 = None →
       nsteps call n priv0 priv →
       Z.of_nat n ≤ G_MAXINT64 →
       map_Forall (λ _ item, 0 ≤ age item ≤ Z.of_nat n) (items priv)).
Proof.
  split.
  - intros n priv Hreach.
    assert (Hinv : value_type priv = G_TYPE_INVALID ∧ items priv = ∅).
    { revert priv Hreach.
      apply (rtc_ind_r (λ p, value_type p = G_TYPE_INVALID ∧ items p = ∅)).
      - by destruct n.
      - intros p p' _ Hcall [Hty Hempty]. by eapply call_keeps_empty. }
    destruct Hinv as [_ ->]. apply map_Forall_empty.
  - intros priv0 n priv Hres Hsteps Hn.
    apply (calls_ages_bounded n priv0 priv 0 Hsteps); [done|lia|].
    unfold items. rewrite Hres. apply map_Forall_empty.
Qed.

(** *** Configuration misuse *)

Lemma get_item_ret priv key now :
  ret (gsk_resource_cache_get_item priv key now)
    = match items priv !! key with Some item => value item | None => NULL end.
Proof.
  destruct (items priv !! key) as [item|] eqn:Hkey.
  - by destruct (get_item_hit priv key now item Hkey) as (-> & _).
  - by destruct (get_item_miss priv key now Hkey) as (-> & _).
Qed.

Lemma setters_frozen priv :
  is_Some (resources priv) →
  let failed := [Critical (Key := Key) (AssertionFailed "priv->resources == NULL")] in
  (∀ f, post (gsk_resource_cache_set_hash_func priv f) = priv
        ∧ emitted (gsk_resource_cache_set_hash_func priv f) = failed)
  ∧ (∀ f, post (gsk_resource_cache_set_equal_func priv f) = priv
          ∧ emitted (gsk_resource_cache_set_equal_func priv f) = failed)
  ∧ (∀ f, post (gsk_resource_cache_set_free_func priv f) = priv
          ∧ emitted (gsk_resource_cache_set_free_func priv f) = failed)
  ∧ (∀ ty, post (gsk_resource_cache_set_value_type priv ty) = priv
           ∧ emitted (gsk_resource_cache_set_value_type priv ty) = failed).
Proof.
  intros [tbl Hres] failed.
  unfold gsk_resource_cache_set_hash_func, gsk_resource_cache_set_equal_func,
    gsk_resource_cache_set_free_func, gsk_resource_cache_set_value_type.
  rewrite Hres. by repeat split.
Qed.

(** Once allocated, the table stays, and no call changes the hash,
    equality or free function or the value type. *)
Lemma call_frozen priv priv' :
  call priv priv' →
  is_Some (resources priv) →
  is_Some (resources priv') ∧ frozen_part priv' = frozen_part priv.
Proof.
  intros Hcall Hres.
  destruct (setters_frozen priv Hres) as (Hh & He & Hf & Ht).
  destruct Hcall as [priv key v|priv key|priv key now|priv key|priv order Hv
                    |priv f|priv f|priv f|priv ty|priv n].
  - split; [apply add_item_allocates|].
    pose proof (add_item_config priv key v) as Hcfg. unfold config in Hcfg.
    unfold frozen_part. congruence.
  - by rewrite (proj1 (proj2 (has_item_spec priv key))).
  - destruct Hres as [tbl Hres]. unfold gsk_resource_cache_get_item. rewrite Hres.
    destruct (g_hash_table_lookup tbl key); cbn; rewrite ?Hres; eauto.
  - destruct Hres as [tbl Hres]. unfold gsk_resource_cache_invalidate_item.
    rewrite Hres. destruct (g_hash_table_lookup tbl key); cbn; rewrite ?Hres; eauto.
    destruct (gint64 _ <? 0); cbn; eauto.
  - destruct Hres as [tbl Hres]. unfold collect_items_in. rewrite Hres.
    destruct (collect_loop _ order _) as [[m res] evs]. cbn. eauto.
  - by rewrite (proj1 (Hh f)).
  - by rewrite (proj1 (He f)).
  - by rewrite (proj1 (Hf f)).
  - by rewrite (proj1 (Ht ty)).
  - done.
Qed.

Lemma calls_frozen priv priv' :
  rtc call priv priv' →
  is_Some (resources priv) →
  is_Some (resources priv') ∧ frozen_part priv' = frozen_part priv.
Proof.
  intros Hcalls Hres. revert priv' Hcalls.
  apply (rtc_ind_r (λ p, is_Some (resources p) ∧ frozen_part p = frozen_part priv));
    [done|].
  intros p p' _ Hcall [Hp Heq].
  destruct (call_frozen p p' Hcall Hp) as [Hp' Heq']. split; [done|congruence].
Qed.

(** C7 (as the code has it).  [gsk_resource_cache_set_value_type] never
    records a value type: whatever the type, the three supported kinds
    included, the call leaves the cache as it was and emits one
    diagnostic, which for a valid type on a cache without table is
    the unsupported-type one. *)
Theorem set_value_type_never_accepts priv ty :
  post (gsk_resource_cache_set_value_type priv ty) = priv
  ∧ emitted (gsk_resource_cache_set_value_type priv ty)
    = [Critical
         match resources priv with
         | Some _ => AssertionFailed "priv->resources == NULL"
         | None =>
             if ty =? G_TYPE_INVALID
             then AssertionFailed "value_type != G_TYPE_INVALID"
             else UnsupportedResourceType ty
         end].
Proof.
  split; [apply set_value_type_rejected|].
  unfold gsk_resource_cache_set_value_type.
  destruct (resources priv); [done|].
  destruct (ty =? G_TYPE_INVALID); [done|].
  destruct (Z.eqb_spec (G_TYPE_FUNDAMENTAL ty) G_TYPE_POINTER) as [Hp|Hp]; [|done].
  destruct (Z.eqb_spec (G_TYPE_FUNDAMENTAL ty) G_TYPE_BOXED) as [Hb|Hb]; [|done].
  rewrite Hp in Hb. by vm_compute in Hb.
Qed.

(** C8 (amended).  On a cache without a value type, add on an absent
    key is rejected with one diagnostic; it creates no entry and changes
    neither the entries nor the configuration, and has and get answer
    as before.  The call does allocate the table, though: from then on
    the hash, equality, free and value-type setters are rejected, the
    cache stays without a value type whatever is called next, and a
    later add on an absent key is rejected in the same way. *)
Theorem add_item_without_value_type priv key v :
  value_type priv = G_TYPE_INVALID →
  items priv !! key = None →
  let o := gsk_resource_cache_add_item priv key v in
  emitted o = [Critical InvalidResourceType]
  ∧ items (post o) = items priv
  ∧ config (post o) = config priv
  ∧ (∀ key', ret (gsk_resource_cache_has_item (post o) key')
               = ret (gsk_resource_cache_has_item priv key'))
  ∧ (∀ key' now, ret (gsk_resource_cache_get_item (post o) key' now)
                   = ret (gsk_resource_cache_get_item priv key' now))
  ∧ is_Some (resources (post o))
  ∧ (∀ f, post (gsk_resource_cache_set_hash_func (post o) f) = post o)
  ∧ (∀ f, post (gsk_resource_cache_set_equal_func (post o) f) = post o)
  ∧ (∀ f, post (gsk_resource_cache_set_free_func (post o) f) = post o)
  ∧ (∀ ty, post (gsk_resource_cache_set_value_type (post o) ty) = post o)
  ∧ (∀ key' v', items priv !! key' = None →
       items (post (gsk_resource_cache_add_item (post o) key' v')) = items priv
       ∧ emitted (gsk_resource_cache_add_item (post o) key' v')
           = [Critical InvalidResourceType])
  ∧ (∀ priv', rtc call (post o) priv' →
       is_Some (resources priv') ∧ value_type priv' = G_TYPE_INVALID).
Proof.
  assert (Hrej : ∀ (p : GskResourceCachePrivate (Key := Key)) (k : Key) (w : gpointer),
            value_type p = G_TYPE_INVALID → items p !! k = None →
            emitted (gsk_resource_cache_add_item p k w) = [Critical InvalidResourceType]
            ∧ items (post (gsk_resource_cache_add_item p k w)) = items p).
  { intros p k w Hty Hk. destruct (add_item_absent p k w Hk) as [Hitems Hev].
    unfold resource_cache_item_new in Hitems, Hev.
    rewrite Hty, Z.eqb_refl in Hitems, Hev. done. }
  intros Hty Hkey o.
  destruct (Hrej priv key v Hty Hkey) as [Hev Hitems]. fold o in Hev, Hitems.
  pose proof (add_item_config priv key v) as Hcfg. fold o in Hcfg.
  pose proof (add_item_allocates priv key v) as Halloc. fold o in Halloc.
  destruct (setters_frozen (post o) Halloc) as (Hh & He & Hf & Ht).
  assert (Hty' : value_type (post o) = G_TYPE_INVALID).
  { unfold config in Hcfg. congruence. }
  split; [done|]. split; [done|]. split; [done|].
  split; [intros key'; by rewrite !(proj1 (has_item_spec _ _)), Hitems|].
  split; [intros key' now; by rewrite !get_item_ret, Hitems|].
  split; [done|].
  split; [intros f; apply Hh|]. split; [intros f; apply He|].
  split; [intros f; apply Hf|]. split; [intros ty; apply Ht|].
  split.
  - intros key' v' Hkey'. rewrite <- Hitems.
    destruct (Hrej (post o) key' v' Hty') as [Hev' Hitems']; [by rewrite Hitems|].
    done.
  - intros priv' Hcalls. destruct (calls_frozen _ _ Hcalls Halloc) as [Hres' Hfr].
    split; [done|]. unfold frozen_part in Hfr. congruence.
Qed.

(** C9 (amended).  Once the table exists, setting the hash function,
    the equality function, the key-destroy function or the value type
    is rejected with a diagnostic and leaves the cache unchanged;
    setting the name is accepted at any time and changes the name
    only.  The table, once allocated, is there after every later call,
    so the four guarded fields never change again. *)
Theorem configuration_frozen_except_name priv :
  is_Some (resources priv) →
  let failed := [Critical (Key := Key) (AssertionFailed "priv->resources == NULL")] in
  (∀ f, post (gsk_resource_cache_set_hash_func priv f) = priv
        ∧ emitted (gsk_resource_cache_set_hash_func priv f) = failed)
  ∧ (∀ f, post (gsk_resource_cache_set_equal_func priv f) = priv
          ∧ emitted (gsk_resource_cache_set_equal_func priv f) = failed)
  ∧ (∀ f, post (gsk_resource_cache_set_free_func priv f) = priv
          ∧ emitted (gsk_resource_cache_set_free_func priv f) = failed)
  ∧ (∀ ty, post (gsk_resource_cache_set_value_type priv ty) = priv
           ∧ emitted (gsk_resource_cache_set_value_type priv ty) = failed)
  ∧ (∀ n, config (post (gsk_resource_cache_set_name priv n))
            = (key_hash priv, key_equal priv, key_notify priv, value_type priv, n)
          ∧ resources (post (gsk_resource_cache_set_name priv n)) = resources priv
          ∧ emitted (gsk_resource_cache_set_name priv n) = [])
  ∧ (∀ priv', rtc call priv priv' →
       is_Some (resources priv') ∧ frozen_part priv' = frozen_part priv).
Proof.
  intros Hres failed.
  destruct (setters_frozen priv Hres) as (Hh & He & Hf & Ht).
  split; [apply Hh|]. split; [apply He|]. split; [apply Hf|]. split; [apply Ht|].
  split; [done|]. intros priv' Hcalls. by apply calls_frozen.
Qed.

(** ** Further properties of the cache *)

(** *** Acquiring and releasing a value *)

Lemma item_free_of_new ty v item evs :
  resource_cache_item_new (Key := Key) ty v = (Some item, evs) →
  (v ≠ NULL → g_boxed_copy ty v ≠ NULL) →
  resource_cache_item_free item = acquired evs.
Proof.
  unfold resource_cache_item_new, resource_cache_item_free, acquired.
  intros Hnew Hcopy.
  destruct (ty =? G_TYPE_INVALID); [done|].
  destruct (Z.eqb_spec (G_TYPE_FUNDAMENTAL ty) G_TYPE_POINTER) as [Hp|Hp].
  { injection Hnew as <- <-. cbn. by rewrite Hp. }
  destruct (Z.eqb_spec (G_TYPE_FUNDAMENTAL ty) G_TYPE_BOXED) as [Hb|Hb].
  { destruct (Z.eqb_spec v NULL) as [Hv|Hv]; injection Hnew as <- <-; cbn.
    - destruct (Z.eqb_spec (G_TYPE_FUNDAMENTAL ty) G_TYPE_POINTER); [done|].
      by rewrite Hb.
    - destruct (Z.eqb_spec (G_TYPE_FUNDAMENTAL ty) G_TYPE_POINTER); [done|].
      rewrite Hb. cbn. destruct (Z.eqb_spec (g_boxed_copy ty v) NULL) as [Hc|Hc]; [|done].
      by destruct (Hcopy Hv). }
  destruct (Z.eqb_spec (G_TYPE_FUNDAMENTAL ty) G_TYPE_OBJECT) as [Ho|Ho]; [|done].
  destruct (Z.eqb_spec v NULL) as [Hv|Hv]; injection Hnew as <- <-; cbn.
  - destruct (Z.eqb_spec (G_TYPE_FUNDAMENTAL ty) G_TYPE_POINTER); [done|].
    destruct (Z.eqb_spec (G_TYPE_FUNDAMENTAL ty) G_TYPE_BOXED); [done|].
    by rewrite Ho.
  - destruct (Z.eqb_spec (G_TYPE_FUNDAMENTAL ty) G_TYPE_POINTER); [done|].
    destruct (Z.eqb_spec (G_TYPE_FUNDAMENTAL ty) G_TYPE_BOXED); [done|].
    rewrite Ho. cbn. by destruct (Z.eqb_spec v NULL).
Qed.

Lemma item_new_unsupported ty v :
  supported_value_type ty = false →
  resource_cache_item_new (Key := Key) ty v
    = (None, [Critical (if ty =? G_TYPE_INVALID then InvalidResourceType
                        else UnsupportedResourceType ty)]).
Proof.
  unfold supported_value_type, resource_cache_item_new. intros Hs.
  destruct (ty =? G_TYPE_INVALID); [done|]. cbn in Hs.
  destruct (G_TYPE_FUNDAMENTAL ty =? G_TYPE_POINTER); [done|].
  destruct (G_TYPE_FUNDAMENTAL ty =? G_TYPE_BOXED); [done|].
  by destruct (G_TYPE_FUNDAMENTAL ty =? G_TYPE_OBJECT).
Qed.

(** X1. What [resource_cache_item_free] releases is exactly what
    [resource_cache_item_new] acquired for the entry: nothing for a
    pointer or a [NULL] value, the copy for a boxed value, the object for
    an object; it emits no diagnostic.  [resource_cache_item_new] emits
    at most one event, an acquisition.  ([g_boxed_copy] is taken not to
    return [NULL] for the value at hand.) *)
Theorem item_new_free_balanced ty v item evs :
  resource_cache_item_new (Key := Key) ty v = (Some item, evs) →
  (v ≠ NULL → g_boxed_copy ty v ≠ NULL) →
  resource_cache_item_free item = acquired evs
  ∧ released (Key := Key) (resource_cache_item_free item) = resource_cache_item_free item
  ∧ (length evs ≤ 1)%nat
  ∧ Forall (λ e, is_Some (release_of e)) evs.
Proof.
  intros Hnew Hcopy. rewrite (item_free_of_new ty v item evs Hnew Hcopy).
  split; [done|]. revert Hnew. unfold resource_cache_item_new.
  repeat match goal with |- context [if ?b then _ else _] => destruct b end;
    intros [= <- <-]; cbn; repeat split; repeat constructor; eauto.
Qed.

(** X2. On an absent key, add inserts an entry exactly when the value
    type of the cache is supported.  With an invalid or unsupported type
    it emits the one matching diagnostic, acquires nothing and leaves the
    entries and the configuration as they were. *)
Theorem add_item_inserts_iff_supported priv key v :
  items priv !! key = None →
  let o := gsk_resource_cache_add_item priv key v in
  (is_Some (items (post o) !! key) ↔ supported_value_type (value_type priv) = true)
  ∧ (supported_value_type (value_type priv) = false →
       items (post o) = items priv
       ∧ config (post o) = config priv
       ∧ emitted o
           = [Critical (if value_type priv =? G_TYPE_INVALID then InvalidResourceType
                        else UnsupportedResourceType (value_type priv))]).
Proof.
  intros Hkey o. destruct (add_item_absent priv key v Hkey) as [Hitems Hev].
  fold o in Hitems, Hev.
  destruct (supported_value_type (value_type priv)) eqn:Hs.
  - destruct (item_new_supported (value_type priv) v Hs) as (item & evs & Hnew & _).
    rewrite Hnew in Hitems. cbn in Hitems. split; [|done].
    split; [done|]. intros _. rewrite Hitems, lookup_insert_eq. eauto.
  - rewrite (item_new_unsupported _ v Hs) in Hitems, Hev. cbn in Hitems, Hev.
    split.
    + rewrite Hitems, Hkey. split; [by intros [? ?]|done].
    + intros _. split; [done|]. split; [apply add_item_config|done].
Qed.

(** *** Round trip and locality *)

Lemma add_item_other priv key key' v :
  key' ≠ key → items (post (gsk_resource_cache_add_item priv key v)) !! key' = items priv !! key'.
Proof.
  intros Hne. destruct (items priv !! key) as [item|] eqn:Hkey.
  - destruct (add_item_present priv key v item Hkey) as [-> _].
    by rewrite lookup_insert_ne.
  - destruct (add_item_absent priv key v Hkey) as [-> _].
    destruct (resource_cache_item_new _ v).1; [by rewrite lookup_insert_ne|done].
Qed.

(** X3. Add followed by get is a round trip: on an absent key of a
    cache with a valid value type, get returns the pointer just added for
    the pointer and object kinds, and the copy made by [g_boxed_copy]
    ([NULL] for a [NULL] value) for the boxed kind.  What get returns for
    any other key is what it returned before the add. *)
Theorem add_then_get_round_trip priv key v now :
  value_type priv ≠ G_TYPE_INVALID →
  items priv !! key = None →
  let s := post (gsk_resource_cache_add_item priv key v) in
  (G_TYPE_FUNDAMENTAL (value_type priv) = G_TYPE_POINTER →
     ret (gsk_resource_cache_get_item s key now) = v)
  ∧ (G_TYPE_FUNDAMENTAL (value_type priv) = G_TYPE_OBJECT →
       ret (gsk_resource_cache_get_item s key now) = v)
  ∧ (G_TYPE_FUNDAMENTAL (value_type priv) = G_TYPE_BOXED →
       ret (gsk_resource_cache_get_item s key now)
         = if v =? NULL then NULL else g_boxed_copy (value_type priv) v)
  ∧ (∀ key', key' ≠ key →
       ret (gsk_resource_cache_get_item s key' now)
         = ret (gsk_resource_cache_get_item priv key' now)).
Proof.
  intros Hinv Hkey s.
  assert (Hkind : ∀ k, G_TYPE_FUNDAMENTAL (value_type priv) = k →
            k = G_TYPE_POINTER ∨ k = G_TYPE_BOXED ∨ k = G_TYPE_OBJECT →
            ∃ item, items s !! key = Some item
              ∧ (k = G_TYPE_POINTER → value item = v)
              ∧ (k = G_TYPE_OBJECT → value item = v)
              ∧ (k = G_TYPE_BOXED →
                   value item = if v =? NULL then NULL else g_boxed_copy (value_type priv) v)).
  { intros k Hk Hcases.
    assert (Hs : supported_value_type (value_type priv) = true).
    { unfold supported_value_type. apply andb_true_iff. split.
      - apply negb_true_iff. by apply Z.eqb_neq.
      - rewrite Hk. destruct Hcases as [-> | [-> | ->]]; by vm_compute. }
    destruct (item_new_supported (value_type priv) v Hs)
      as (item & evs & Hnew & _ & _ & _ & Hp & Hb & Ho & Hnull).
    destruct (add_item_absent priv key v Hkey) as [Hitems _]. fold s in Hitems.
    rewrite Hnew in Hitems. cbn in Hitems. exists item.
    split; [rewrite Hitems; apply lookup_insert_eq|].
    split; [|split].
    - intros ->. by apply Hp.
    - intros ->. destruct (Z.eqb_spec v NULL) as [Hv|Hv].
      + rewrite Hv. apply Hnull; [|done]. rewrite Hk. by vm_compute.
      + by apply Ho.
    - intros ->. destruct (Z.eqb_spec v NULL) as [Hv|Hv].
      + apply Hnull; [|done]. rewrite Hk. by vm_compute.
      + by apply Hb. }
  split; [|split; [|split]].
  - intros Hk. destruct (Hkind _ Hk) as (item & Hin & Hp & _); [by left|].
    rewrite get_item_ret, Hin. by apply Hp.
  - intros Hk. destruct (Hkind _ Hk) as (item & Hin & _ & Ho & _); [by right; right|].
    rewrite get_item_ret, Hin. by apply Ho.
  - intros Hk. destruct (Hkind _ Hk) as (item & Hin & _ & _ & Hb); [by right; left|].
    rewrite get_item_ret, Hin. by apply Hb.
  - intros key' Hne. rewrite !get_item_ret. unfold s. by rewrite add_item_other.
Qed.

(** X4. Add, get and invalidate act on the entry of their key only:
    the entry of every other key is left exactly as it was; has changes
    nothing at all. *)
Theorem operations_are_local priv key key' v now :
  key' ≠ key →
  items (post (gsk_resource_cache_add_item priv key v)) !! key' = items priv !! key'
  ∧ items (post (gsk_resource_cache_get_item priv key now)) !! key' = items priv !! key'
  ∧ items (post (gsk_resource_cache_invalidate_item priv key)) !! key' = items priv !! key'
  ∧ post (gsk_resource_cache_has_item priv key) = priv.
Proof.
  intros Hne. split; [by apply add_item_other|]. split; [|split].
  - destruct (items priv !! key) as [item|] eqn:Hkey.
    + destruct (get_item_hit priv key now item Hkey) as (_ & -> & _).
      by rewrite lookup_insert_ne.
    + by destruct (get_item_miss priv key now Hkey) as (_ & -> & _).
  - destruct (items priv !! key) as [item|] eqn:Hkey.
    + destruct (invalidate_item_hit priv key item Hkey) as (_ & -> & _).
      by rewrite lookup_insert_ne.
    + by destruct (invalidate_item_miss priv key Hkey) as (_ & -> & _).
  - apply has_item_spec.
Qed.

(** *** What a sweep releases, and when an entry goes *)

Lemma collect_loop_events d (l : list (Key * ResourceCacheItem)) m res evs :
  (foldl (collect_step d) (m, res, evs) l).2
    = evs ++ (filter (λ kv, age kv.2 = 0) l
                ≫= (λ kv, g_hash_table_iter_remove d kv.1 kv.2)).
Proof.
  revert m res evs. induction l as [|[k0 it0] l IH]; intros m res evs.
  - cbn. by rewrite app_nil_r.
  - cbn [foldl]. unfold collect_step at 2. cbn [fst snd].
    destruct (Z.eqb_spec (age it0) 0) as [Hage|Hage].
    + rewrite IH, filter_cons_True by done. rewrite bind_cons. cbn [fst snd].
      by rewrite app_assoc.
    + by rewrite IH, filter_cons_False by done.
Qed.

Lemma collect_items_lookup priv order key :
  visits order priv →
  items (post (collect_items_in order priv)) !! key = items priv !! key ≫= survivor.
Proof.
  intros Hv. destruct (collect_items_spec priv order Hv) as (-> & _).
  apply lookup_omap.
Qed.

Lemma set_age_same item : set_age (age item) item = item.
Proof. by destruct item. Qed.

(** X5. The events of a collection sweep are, for each evicted entry
    (an entry of age 0) once and in traversal order, the call of the
    table's key-destroy function on its key, if there is one, followed by
    the release of its value; a surviving entry causes no event.  On a
    cache without table the sweep emits nothing. *)
Theorem collect_releases_exactly_stale priv order :
  visits order priv →
  let evicted := filter (λ kv, age kv.2 = 0) order in
  emitted (collect_items_in order priv)
    = match resources priv with
      | None => []
      | Some tbl =>
          evicted ≫= (λ kv, (if key_destroy_func tbl =? NULL then []
                             else [KeyNotify (key_destroy_func tbl) kv.1])
                            ++ resource_cache_item_free kv.2)
      end
  ∧ NoDup evicted.*1
  ∧ (∀ key item, (key, item) ∈ evicted ↔ items priv !! key = Some item ∧ age item = 0).
Proof.
  intros Hv evicted. split; [|split].
  - unfold collect_items_in. destruct (resources priv) as [tbl|]; [|done].
    pose proof (collect_loop_events (key_destroy_func tbl) order (entries tbl) 0 []) as Hev.
    unfold collect_loop. destruct (foldl _ _ order) as [[m res] evs]. cbn in *.
    by rewrite Hev.
  - unfold evicted. unfold visits in Hv.
    pose proof (NoDup_fst_map_to_list (items priv)) as Hnd. rewrite <- Hv in Hnd.
    clear Hv. induction order as [|[k it] l IH]; [constructor|].
    cbn [fmap list_fmap fst] in Hnd. apply NoDup_cons in Hnd as [Hk Hnd].
    destruct (decide (age it = 0)) as [Ha|Ha].
    + rewrite filter_cons_True by done. cbn. apply NoDup_cons. split; [|by apply IH].
      intros Hel. apply Hk. apply list_elem_of_fmap in Hel as [[k' it'] [-> Hel]].
      apply list_elem_of_filter in Hel as [_ Hel]. apply list_elem_of_fmap.
      by exists (k', it').
    + rewrite filter_cons_False by done. by apply IH.
  - intros key item. unfold evicted. rewrite list_elem_of_filter. unfold visits in Hv.
    rewrite Hv, elem_of_map_to_list. cbn. tauto.
Qed.

(** X6. An entry that is left alone outlives as many sweeps as its age
    says: after [n] sweeps in a row, with [n] at most its age, it is in
    the cache with its age lowered by [n] and otherwise unchanged; after
    more sweeps than its age it is gone. *)
Theorem entry_outlives_its_age priv key item n :
  items priv !! key = Some item →
  0 ≤ age item ≤ G_MAXINT64 →
  (Z.of_nat n ≤ age item →
     items (collect_repeatedly n priv) !! key
       = Some (set_age (age item - Z.of_nat n) item))
  ∧ (age item < Z.of_nat n → items (collect_repeatedly n priv) !! key = None).
Proof.
  intros Hkey Hage. induction n as [|n [IHle IHgt]].
  - split; [|lia]. intros _. cbn. by rewrite Z.sub_0_r, set_age_same.
  - assert (Hstep : items (collect_repeatedly (S n) priv) !! key
                      = items (collect_repeatedly n priv) !! key ≫= survivor).
    { change (collect_repeatedly (S n) priv)
        with (post (gsk_resource_cache_collect_items (collect_repeatedly n priv))).
      destruct (collect_items_canonical (collect_repeatedly n priv)) as [-> Hv].
      by apply collect_items_lookup. }
    rewrite Hstep. split.
    + intros Hn. rewrite IHle by lia. cbn. unfold survivor. cbn.
      destruct (Z.eqb_spec (age item - Z.of_nat n) 0); [lia|].
      rewrite gint64_in_range by (unfold G_MININT64, G_MAXINT64 in *; lia).
      f_equal. unfold set_age. cbn. f_equal. lia.
    + intros Hn. destruct (decide (age item < Z.of_nat n)) as [Hlt|Hge].
      * by rewrite IHgt.
      * rewrite IHle by lia. cbn. unfold survivor. cbn.
        destruct (Z.eqb_spec (age item - Z.of_nat n) 0); [done|lia].
Qed.

(** X7. Adding a key that is in the cache and then sweeping leaves its
    entry exactly as it was before the two calls, whatever value is
    handed to add: an entry that is added again in every generation is
    never evicted. *)
Theorem readded_entry_survives priv key v item order :
  items priv !! key = Some item →
  0 ≤ age item < G_MAXINT64 →
  visits order (post (gsk_resource_cache_add_item priv key v)) →
  items (post (collect_items_in order (post (gsk_resource_cache_add_item priv key v))))
    !! key = Some item
  ∧ emitted (gsk_resource_cache_add_item priv key v) = [].
Proof.
  intros Hkey Hage Hv. destruct (add_item_present priv key v item Hkey) as [Hitems Hev].
  split; [|done]. rewrite (collect_items_lookup _ _ key Hv), Hitems, lookup_insert_eq.
  cbn. unfold survivor. cbn.
  rewrite (gint64_in_range (age item + 1)) by (unfold G_MININT64, G_MAXINT64 in *; lia).
  destruct (Z.eqb_spec (age item + 1) 0); [lia|].
  rewrite gint64_in_range by (unfold G_MININT64, G_MAXINT64 in *; lia).
  replace (age item + 1 - 1) with (age item) by lia.
  f_equal. by destruct item.
Qed.

(** X8. Invalidating an entry of age 0 or 1 makes the next sweep evict
    it: after invalidate and one sweep the key is absent. *)
Theorem invalidate_then_collect_evicts priv key item order :
  items priv !! key = Some item →
  0 ≤ age item ≤ 1 →
  visits order (post (gsk_resource_cache_invalidate_item priv key)) →
  let s := post (collect_items_in order
                   (post (gsk_resource_cache_invalidate_item priv key))) in
  items s !! key = None
  ∧ ret (gsk_resource_cache_has_item s key) = false.
Proof.
  intros Hkey Hage Hv s.
  destruct (invalidate_item_hit priv key item Hkey) as (_ & Hitems & _).
  cbn zeta in Hitems.
  rewrite gint64_in_range in Hitems by (unfold G_MININT64, G_MAXINT64; lia).
  assert (Hzero : items (post (gsk_resource_cache_invalidate_item priv key)) !! key
                    = Some (set_age 0 item)).
  { rewrite Hitems, lookup_insert_eq. do 2 f_equal.
    destruct (Z.ltb_spec (age item - 1) 0); lia. }
  assert (Hgone : items s !! key = None).
  { unfold s. by rewrite (collect_items_lookup _ _ key Hv), Hzero. }
  split; [done|]. by rewrite (proj1 (has_item_spec _ _)), Hgone.
Qed.

(** *** What a call can and cannot do to the cache *)

Lemma item_new_some ty v item evs :
  resource_cache_item_new (Key := Key) ty v = (Some item, evs) →
  supported_value_type ty = true ∧ item_value_type item = ty.
Proof.
  destruct (supported_value_type ty) eqn:Hs.
  - destruct (item_new_supported ty v Hs) as (item' & evs' & -> & Hty & _).
    by intros [= <- _].
  - by rewrite (item_new_unsupported ty v Hs).
Qed.

(** Where an entry found after a call comes from. *)
Lemma call_entry priv priv' key item' :
  call priv priv' →
  items priv' !! key = Some item' →
  (∃ item, items priv !! key = Some item
     ∧ value item' = value item ∧ item_value_type item' = item_value_type item)
  ∨ (items priv !! key = None
     ∧ ∃ v evs, resource_cache_item_new (Key := Key) (value_type priv) v = (Some item', evs)).
Proof.
  destruct (setters_keep_items priv) as (Hi1 & Hi2 & Hi3 & Hi4 & Hi5).
  intros Hcall.
  destruct Hcall as [priv k v|priv k|priv k now|priv k|priv order Hv
                    |priv f|priv f|priv f|priv ty|priv n].
  - destruct (decide (key = k)) as [->|Hne].
    + destruct (items priv !! k) as [item|] eqn:Hkey.
      * destruct (add_item_present priv k v item Hkey) as [-> _].
        rewrite lookup_insert_eq. intros [= <-]. left. by exists item.
      * destruct (add_item_absent priv k v Hkey) as [-> _].
        destruct (resource_cache_item_new _ v) as [[item|] evs] eqn:Hnew; cbn.
        -- rewrite lookup_insert_eq. intros [= <-]. right. split; [done|]. eauto.
        -- by rewrite Hkey.
    + rewrite add_item_other by done. intros Hkey. left. by exists item'.
  - rewrite (proj1 (proj2 (has_item_spec priv k))). intros Hkey. left. by exists item'.
  - destruct (items priv !! k) as [item|] eqn:Hk.
    + destruct (get_item_hit priv k now item Hk) as (_ & -> & _).
      destruct (decide (key = k)) as [->|Hne].
      * rewrite lookup_insert_eq. intros [= <-]. left. by exists item.
      * rewrite lookup_insert_ne by done. intros Hkey. left. by exists item'.
    + rewrite (proj1 (proj2 (get_item_miss priv k now Hk))).
      intros Hkey. left. by exists item'.
  - destruct (items priv !! k) as [item|] eqn:Hk.
    + destruct (invalidate_item_hit priv k item Hk) as (_ & -> & _).
      destruct (decide (key = k)) as [->|Hne].
      * rewrite lookup_insert_eq. intros [= <-]. left. by exists item.
      * rewrite lookup_insert_ne by done. intros Hkey. left. by exists item'.
    + rewrite (proj1 (proj2 (invalidate_item_miss priv k Hk))).
      intros Hkey. left. by exists item'.
  - rewrite (collect_items_lookup priv order key Hv).
    destruct (items priv !! key) as [item|]; [|done]. cbn. unfold survivor.
    destruct (age item =? 0); [done|]. intros [= <-]. left. by exists item.
  - rewrite Hi1. intros Hkey. left. by exists item'.
  - rewrite Hi2. intros Hkey. left. by exists item'.
  - rewrite Hi3. intros Hkey. left. by exists item'.
  - rewrite Hi4. intros Hkey. left. by exists item'.
  - rewrite Hi5. intros Hkey. left. by exists item'.
Qed.

Lemma call_value_type priv priv' : call priv priv' → value_type priv' = value_type priv.
Proof.
  destruct (setters_keep_value_type priv) as (Ht1 & Ht2 & Ht3 & Ht4 & Ht5).
  intros Hcall.
  destruct Hcall as [priv k v|priv k|priv k now|priv k|priv order Hv
                    |priv f|priv f|priv f|priv ty|priv n]; try done.
  - pose proof (add_item_config priv k v) as Hcfg. unfold config in Hcfg. congruence.
  - by rewrite (proj1 (proj2 (has_item_spec priv k))).
  - destruct (items priv !! k) as [item|] eqn:Hk.
    + destruct (get_item_hit priv k now item Hk) as (_ & _ & Hcfg & _).
      unfold config in Hcfg. congruence.
    + by rewrite (proj1 (proj2 (get_item_miss priv k now Hk))).
  - destruct (items priv !! k) as [item|] eqn:Hk.
    + destruct (invalidate_item_hit priv k item Hk) as (_ & _ & Hcfg & _).
      unfold config in Hcfg. congruence.
    + by rewrite (proj1 (proj2 (invalidate_item_miss priv k Hk))).
  - destruct (collect_items_spec priv order Hv) as (_ & _ & _ & Hcfg).
    unfold config in Hcfg. congruence.
Qed.


(** X10. No call rewrites a stored value: an entry that is in the cache
    before and after a call holds the same value, of the same type,
    after it as before. *)
Theorem stored_value_never_rewritten priv priv' key item item' :
  call priv priv' →
  items priv !! key = Some item →
  items priv' !! key = Some item' →
  value item' = value item ∧ item_value_type item' = item_value_type item.
Proof.
  intros Hcall Hkey Hkey'.
  destruct (call_entry priv priv' key item' Hcall Hkey') as
    [(item0 & Hkey0 & Hval & Hty)|[Hnone _]]; [|congruence].
  rewrite Hkey in Hkey0. by injection Hkey0 as <-.
Qed.

(** X11. Starting from a cache whose table is not allocated, after any
    sequence of calls the value type of the cache is the one it started
    with, and every entry carries that type, which is a supported one;
    so freeing an entry never meets an unsupported type. *)
Theorem entries_share_supported_type priv0 priv :
  resources priv0 = None →
  rtc call priv0 priv →
  value_type priv = value_type priv0
  ∧ map_Forall (λ _ item,
       item_value_type item = value_type priv0
       ∧ supported_value_type (value_type priv0) = true
       ∧ Forall (λ e, is_release e = true) (resource_cache_item_free (Key := Key) item))
      (items priv).
Proof.
  intros Hres Hreach. revert priv Hreach.
  apply (rtc_ind_r (λ p, value_type p = value_type priv0
            ∧ map_Forall (λ _ item,
                item_value_type item = value_type priv0
                ∧ supported_value_type (value_type priv0) = true
                ∧ Forall (λ e, is_release e = true)
                    (resource_cache_item_free (Key := Key) item)) (items p))).
  - split; [done|]. unfold items. rewrite Hres. apply map_Forall_empty.
  - intros p p' _ Hcall [Hty Hall]. split.
    { by rewrite (call_value_type p p' Hcall). }
    intros key item' Hkey'.
    destruct (call_entry p p' key item' Hcall Hkey') as
      [(item & Hkey & Hval & Hity)|(_ & v & evs & Hnew)].
    + destruct (Hall key item Hkey) as (Hit & Hs & Hfree).
      split; [congruence|]. split; [done|].
      unfold resource_cache_item_free in *. by rewrite Hity, Hval.
    + destruct (item_new_some _ _ _ _ Hnew) as [Hs Hit]. rewrite Hty in Hs, Hit.
      split; [done|]. split; [done|].
      unfold resource_cache_item_free. rewrite Hit.
      unfold supported_value_type in Hs. apply andb_true_iff in Hs as [_ Hs].
      destruct (G_TYPE_FUNDAMENTAL (value_type priv0) =? G_TYPE_POINTER); [constructor|].
      destruct (G_TYPE_FUNDAMENTAL (value_type priv0) =? G_TYPE_BOXED).
      { destruct (value item' =? NULL); repeat constructor. }
      destruct (G_TYPE_FUNDAMENTAL (value_type priv0) =? G_TYPE_OBJECT); [|done].
      destruct (value item' =? NULL); repeat constructor.
Qed.


Lemma call_table_funcs priv priv' tbl :
  call priv priv' →
  resources priv = Some tbl →
  ∃ tbl', resources priv' = Some tbl'
    ∧ hash_func tbl' = hash_func tbl
    ∧ key_equal_func tbl' = key_equal_func tbl
    ∧ key_destroy_func tbl' = key_destroy_func tbl.
Proof.
  intros Hcall Hres.
  destruct (setters_frozen priv (ex_intro _ tbl Hres)) as (Hh & He & Hf & Ht).
  destruct Hcall as [priv k v|priv k|priv k now|priv k|priv order Hv
                    |priv f|priv f|priv f|priv ty|priv n].
  - unfold gsk_resource_cache_add_item. rewrite Hres.
    destruct (g_hash_table_lookup tbl k); [by eexists|].
    destruct (resource_cache_item_new _ v) as [[item|] evs]; by eexists.
  - rewrite (proj1 (proj2 (has_item_spec priv k))). by exists tbl.
  - unfold gsk_resource_cache_get_item. rewrite Hres.
    destruct (g_hash_table_lookup tbl k); by eexists.
  - unfold gsk_resource_cache_invalidate_item. rewrite Hres.
    destruct (g_hash_table_lookup tbl k); [|by eexists].
    destruct (gint64 _ <? 0); by eexists.
  - unfold collect_items_in. rewrite Hres.
    destruct (collect_loop _ order _) as [[m res] evs]. by eexists.
  - rewrite (proj1 (Hh f)). by exists tbl.
  - rewrite (proj1 (He f)). by exists tbl.
  - rewrite (proj1 (Hf f)). by exists tbl.
  - rewrite (proj1 (Ht ty)). by exists tbl.
  - by exists tbl.
Qed.

(** X13. The table is created by the first add with the hash, equality
    and key-destroy functions configured at that moment, and keeps them
    over every later sequence of calls: the functions set before the
    first add are the ones the table works with from then on. *)
Theorem table_captures_configuration priv0 key v priv :
  resources priv0 = None →
  rtc call (post (gsk_resource_cache_add_item priv0 key v)) priv →
  ∃ tbl, resources priv = Some tbl
    ∧ hash_func tbl = key_hash priv0
    ∧ key_equal_func tbl = key_equal priv0
    ∧ key_destroy_func tbl = key_notify priv0.
Proof.
  intros Hres Hreach. revert priv Hreach.
  apply (rtc_ind_r (λ p, ∃ tbl, resources p = Some tbl
            ∧ hash_func tbl = key_hash priv0
            ∧ key_equal_func tbl = key_equal priv0
            ∧ key_destroy_func tbl = key_notify priv0)).
  - unfold gsk_resource_cache_add_item. rewrite Hres.
    destruct (g_hash_table_lookup _ key); [by eexists|].
    destruct (resource_cache_item_new _ v) as [[item|] evs]; by eexists.
  - intros p p' _ Hcall (tbl & Hp & Hh & He & Hd).
    destruct (call_table_funcs p p' tbl Hcall Hp) as (tbl' & Hp' & Hh' & He' & Hd').
    exists tbl'. split; [done|]. split; [|split]; congruence.
Qed.

(** *** Ownership over the life of the cache *)

#[local] Instance released_Permutation :
  Proper ((≡ₚ) ==> (≡ₚ)) (released (Key := Key)).
Proof. intros t1 t2 Ht. unfold released. by rewrite Ht. Qed.

Lemma released_app (t1 t2 : list (Event Key)) :
  released (t1 ++ t2) = released t1 ++ released t2.
Proof. apply filter_app. Qed.

Lemma acquired_app (t1 t2 : list (Event Key)) :
  acquired (t1 ++ t2) = acquired t1 ++ acquired t2.
Proof. apply omap_app. Qed.

Lemma item_free_quiet item :
  acquired (resource_cache_item_free (Key := Key) item) = [].
Proof.
  unfold resource_cache_item_free.
  by repeat match goal with |- context [if ?b then _ else _] => destruct b end.
Qed.

Lemma iter_remove_events d key item :
  released (g_hash_table_iter_remove d key item) = released (resource_cache_item_free item)
  ∧ acquired (g_hash_table_iter_remove d key item) = [].
Proof.
  unfold g_hash_table_iter_remove. rewrite released_app, acquired_app, item_free_quiet.
  by destruct (d =? NULL).
Qed.

Lemma owed_insert_fresh m key item :
  m !! key = None →
  owed (<[key := item]> m) ≡ₚ released (resource_cache_item_free item) ++ owed m.
Proof.
  intros Hkey. unfold owed. rewrite (map_to_list_insert m key item Hkey).
  by rewrite bind_cons, released_app.
Qed.

Lemma owed_delete m key item :
  m !! key = Some item →
  owed m ≡ₚ released (resource_cache_item_free item) ++ owed (delete key m).
Proof.
  intros Hkey. unfold owed. rewrite <- (map_to_list_delete m key item Hkey).
  by rewrite bind_cons, released_app.
Qed.

Lemma owed_update m key item item' :
  m !! key = Some item →
  resource_cache_item_free (Key := Key) item' = resource_cache_item_free item →
  owed (<[key := item']> m) ≡ₚ owed m.
Proof.
  intros Hkey Hfree. rewrite <- insert_delete_eq.
  rewrite owed_insert_fresh by apply lookup_delete_eq.
  rewrite Hfree. symmetry. by apply owed_delete.
Qed.

Lemma unref_events order tbl :
  released (g_hash_table_unref order tbl)
    = released (order ≫= (λ kv, resource_cache_item_free kv.2))
  ∧ acquired (g_hash_table_unref order tbl) = [].
Proof.
  unfold g_hash_table_unref. induction order as [|[k it] l [IHr IHa]]; [done|].
  rewrite !bind_cons, !released_app, acquired_app, IHr, IHa. cbn [fst snd].
  by destruct (iter_remove_events (key_destroy_func tbl) k it) as [-> ->].
Qed.

Lemma collect_loop_balance d (l : list (Key * ResourceCacheItem)) m res evs :
  NoDup l.*1 →
  (∀ key item, (key, item) ∈ l → m !! key = Some item) →
  released (foldl (collect_step d) (m, res, evs) l).2
    ++ owed (foldl (collect_step d) (m, res, evs) l).1.1
    ≡ₚ released evs ++ owed m
  ∧ acquired (foldl (collect_step d) (m, res, evs) l).2 = acquired evs.
Proof.
  revert m res evs.
  induction l as [|[k0 it0] l IH]; intros m res evs Hnd Hin; [done|].
  cbn [fmap list_fmap fst] in Hnd. apply NoDup_cons in Hnd as [Hk0 Hnd].
  assert (Hm0 : m !! k0 = Some it0) by (apply Hin; left).
  assert (Hrest : ∀ key item, (key, item) ∈ l → key ≠ k0).
  { intros key item Hel ->. apply Hk0. apply list_elem_of_fmap. by exists (k0, item). }
  destruct (iter_remove_events d k0 it0) as [Hrel Hacq].
  cbn [foldl]. unfold collect_step at 2 4 6. cbn [fst snd].
  destruct (age it0 =? 0).
  - destruct (IH (delete k0 m) (int (res + 1)) (evs ++ g_hash_table_iter_remove d k0 it0))
      as [Hbal Hq]; [done| |].
    { intros key item Hel. rewrite lookup_delete_ne by (symmetry; eauto).
      apply Hin. by right. }
    rewrite Hbal, Hq, released_app, acquired_app, Hrel, Hacq, app_nil_r.
    split; [|done]. rewrite <- app_assoc. by rewrite <- (owed_delete m k0 it0 Hm0).
  - destruct (IH (<[k0 := set_age (gint64 (age it0 - 1)) it0]> m) res evs)
      as [Hbal Hq]; [done| |].
    { intros key item Hel. rewrite lookup_insert_ne by (symmetry; eauto).
      apply Hin. by right. }
    rewrite Hbal, Hq. split; [|done].
    by rewrite (owed_update m k0 it0 _ Hm0).
Qed.

(** What one call does to the balance between the values acquired, the
    values released and the values the entries hold. *)
Lemma emits_balance priv t priv' :
  (∀ ty v, v ≠ NULL → g_boxed_copy ty v ≠ NULL) →
  emits priv t priv' →
  released t ++ owed (items priv') ≡ₚ acquired t ++ owed (items priv).
Proof.
  intros Hcopy Hstep.
  destruct (setters_keep_items priv) as (Hi1 & Hi2 & Hi3 & Hi4 & Hi5).
  destruct Hstep as [priv k v|priv k|priv k now|priv k|priv order Hv
                    |priv f|priv f|priv f|priv ty|priv n].
  - destruct (items priv !! k) as [item|] eqn:Hkey.
    + destruct (add_item_present priv k v item Hkey) as [-> ->]. cbn.
      by rewrite (owed_update _ k item _ Hkey).
    + destruct (add_item_absent priv k v Hkey) as [-> ->].
      destruct (resource_cache_item_new _ v) as [[item|] evs] eqn:Hnew; cbn.
      * rewrite (owed_insert_fresh _ k item Hkey).
        rewrite (item_free_of_new _ v item evs Hnew (Hcopy _ v)).
        revert Hnew. unfold resource_cache_item_new.
        repeat match goal with |- context [if ?b then _ else _] => destruct b end;
          intros [= <- <-]; done.
      * revert Hnew. unfold resource_cache_item_new.
        repeat match goal with |- context [if ?b then _ else _] => destruct b end;
          intros [= <-]; done.
  - by rewrite (proj1 (proj2 (has_item_spec priv k))), (proj2 (proj2 (has_item_spec priv k))).
  - destruct (items priv !! k) as [item|] eqn:Hkey.
    + destruct (get_item_hit priv k now item Hkey) as (_ & -> & _ & ->). cbn.
      by rewrite (owed_update _ k item _ Hkey).
    + by destruct (get_item_miss priv k now Hkey) as (_ & -> & ->).
  - destruct (items priv !! k) as [item|] eqn:Hkey.
    + destruct (invalidate_item_hit priv k item Hkey) as (_ & -> & _ & ->).
      rewrite (owed_update _ k item _ Hkey) by done.
      by destruct (gint64 (age item - 1) <? 0).
    + by destruct (invalidate_item_miss priv k Hkey) as (_ & -> & ->).
  - destruct (resources priv) as [tbl|] eqn:Hres.
    + revert Hv. unfold visits, collect_items_in, items. rewrite Hres. intros Hv.
      destruct (collect_loop_balance (key_destroy_func tbl) order (entries tbl) 0 [])
        as [Hbal Hq].
      { rewrite Hv. apply NoDup_fst_map_to_list. }
      { intros key item. rewrite Hv. apply elem_of_map_to_list. }
      unfold collect_loop. destruct (foldl _ _ order) as [[m res] evs]. cbn in *.
      by rewrite Hbal, Hq.
    + unfold collect_items_in. by rewrite Hres.
  - rewrite Hi1. unfold gsk_resource_cache_set_hash_func.
    by destruct (resources priv).
  - rewrite Hi2. unfold gsk_resource_cache_set_equal_func.
    by destruct (resources priv).
  - rewrite Hi3. unfold gsk_resource_cache_set_free_func.
    by destruct (resources priv).
  - rewrite Hi4. unfold gsk_resource_cache_set_value_type.
    destruct (resources priv); [done|].
    by repeat match goal with |- context [if ?b then _ else _] => destruct b end.
  - by rewrite Hi5.
Qed.

Lemma run_balance priv t priv' :
  (∀ ty v, v ≠ NULL → g_boxed_copy ty v ≠ NULL) →
  run priv t priv' →
  released t ++ owed (items priv') ≡ₚ acquired t ++ owed (items priv).
Proof.
  intros Hcopy Hrun.
  induction Hrun as [priv|priv t1 priv1 t2 priv2 Hstep Hrun IH]; [done|].
  rewrite released_app, acquired_app, <- !app_assoc, IH.
  rewrite (Permutation_app_comm (acquired t2)), !app_assoc.
  rewrite (emits_balance priv t1 priv1 Hcopy Hstep).
  rewrite <- !app_assoc. by rewrite (Permutation_app_comm (acquired t2)).
Qed.


(** X15. Nothing leaks and nothing is released twice.  Take a cache
    whose table is not allocated, any sequence of calls, and dispose at
    the end: the values released along the way and by dispose are, as a
    multiset, exactly the values acquired by the adds.  At any moment in
    between, the values the entries hold are those acquired and not yet
    released.  ([g_boxed_copy] is taken never to return [NULL] for a
    value that is not [NULL].) *)
Theorem acquisitions_and_releases_balance priv0 t priv order :
  (∀ ty v, v ≠ NULL → g_boxed_copy ty v ≠ NULL) →
  resources priv0 = None →
  run priv0 t priv →
  visits order priv →
  released t ++ owed (items priv) ≡ₚ acquired t
  ∧ released (t ++ emitted (dispose_in order priv))
      ≡ₚ acquired (t ++ emitted (dispose_in order priv)).
Proof.
  intros Hcopy Hres Hrun Hv.
  pose proof (run_balance priv0 t priv Hcopy Hrun) as Hbal.
  assert (Hempty : owed (items priv0) = []).
  { unfold owed, items. by rewrite Hres, map_to_list_empty. }
  rewrite Hempty, app_nil_r in Hbal. split; [done|].
  rewrite released_app, acquired_app, <- Hbal.
  assert (Hd : released (emitted (dispose_in order priv)) ≡ₚ owed (items priv)
               ∧ acquired (emitted (dispose_in order priv)) = []).
  { revert Hv. unfold visits, dispose_in, items.
    destruct (resources priv) as [tbl|]; cbn [emitted].
    - intros Hv. destruct (unref_events order tbl) as [-> ->].
      split; [|done]. unfold owed. by rewrite Hv.
    - intros _. split; [|done]. unfold owed. by rewrite map_to_list_empty. }
  destruct Hd as [-> ->]. by rewrite app_nil_r.
Qed.

(** *** Ages under repeated calls *)

(** X16. Each add on a key that is in the cache buys its entry one more
    sweep and each invalidate takes one away, down to none: after one add
    per value of [vs] the age is the old age plus the number of adds (as
    long as that stays within [G_MAXINT64]), after [n] invalidations it
    is the old age minus [n], or 0 if that is negative; the entry is
    otherwise unchanged. *)
Theorem age_counts_adds_and_invalidations priv key item vs n :
  items priv !! key = Some item →
  0 ≤ age item →
  age item + Z.of_nat (length vs) ≤ G_MAXINT64 →
  items (add_repeatedly key vs priv) !! key
    = Some (set_age (age item + Z.of_nat (length vs)) item)
  ∧ items (invalidate_repeatedly key n priv) !! key
      = Some (set_age (Z.max 0 (age item - Z.of_nat n)) item).
Proof.
  intros Hkey Hage Hmax. split.
  - clear n. revert priv item Hkey Hage Hmax.
    induction vs as [|v vs IH]; intros priv item Hkey Hage Hmax.
    + cbn. by rewrite Z.add_0_r, set_age_same.
    + cbn [add_repeatedly foldl]. cbn [length] in Hmax.
      destruct (add_item_present priv key v item Hkey) as [Hitems _].
      rewrite gint64_in_range in Hitems by (unfold G_MININT64, G_MAXINT64 in *; lia).
      unfold add_repeatedly in IH.
      rewrite (IH _ (set_age (age item + 1) item)); cbn [age set_age]; [| |lia|lia].
      * f_equal. unfold set_age. cbn. f_equal. cbn [length]. lia.
      * rewrite Hitems. apply lookup_insert_eq.
  - assert (Hle : age item ≤ G_MAXINT64) by lia. clear vs Hmax.
    induction n as [|n IH].
    + cbn. rewrite Z.sub_0_r, Z.max_r by lia. by rewrite set_age_same.
    + change (invalidate_repeatedly key (S n) priv)
        with (post (gsk_resource_cache_invalidate_item
                      (invalidate_repeatedly key n priv) key)).
      destruct (invalidate_item_hit _ key _ IH) as (_ & -> & _).
      rewrite lookup_insert_eq. cbn [age set_age]. f_equal.
      unfold set_age. cbn. f_equal.
      rewrite gint64_in_range by (unfold G_MININT64, G_MAXINT64 in *; lia).
      destruct (Z.ltb_spec (Z.max 0 (age item - Z.of_nat n) - 1) 0); lia.
Qed.

End Properties.

(** ** The statements at concrete caches *)

Section Concrete.
Local Existing Instance Examples.flat_types.

Import Examples.

(** [collect_items_sweep] on the ages 0, 0, 1, 2, visited in reverse
    table order: two entries are removed, the ages 0 and 1 remain. *)
Lemma collect_items_sweep_witness :
  let order := reverse (map_to_list four_ages) in
  let o := collect_items_in order four_cache in
  visits order four_cache
  ∧ map_Forall (λ _ item, G_MININT64 < age item ≤ G_MAXINT64) (items four_cache)
  ∧ Z.of_nat (size (items four_cache)) ≤ G_MAXINT
  ∧ ret o = 2
  ∧ ret (gsk_resource_cache_collect_items four_cache) = 2
  ∧ items (post o) !! 1 = None
  ∧ items (post o) !! 2 = None
  ∧ items (post o) !! 3 = Some (pointer_item 103 0)
  ∧ items (post o) !! 4 = Some (pointer_item 104 1)
  ∧ size (items (post o)) = 2%nat.
Proof.
  intros order o.
  assert (Hv : visits order four_cache) by apply reverse_Permutation.
  assert (Hages : map_Forall (λ _ item, G_MININT64 < age item ≤ G_MAXINT64)
                    (items four_cache)).
  { apply (bool_decide_unpack _). vm_compute. exact I. }
  assert (Hsize : Z.of_nat (size (items four_cache)) ≤ G_MAXINT) by (by vm_compute).
  destruct (collect_items_sweep four_cache order Hv Hages Hsize)
    as (Hzero & Hpos & _ & Hret & Hdiff & _ & Hcanon & _).
  fold o in Hzero, Hpos, Hret, Hdiff, Hcanon.
  assert (Hret2 : ret o = 2) by (rewrite Hret; by vm_compute).
  split; [exact Hv|]. split; [exact Hages|]. split; [exact Hsize|].
  split; [exact Hret2|]. split; [by rewrite Hcanon|].
  split; [by apply (Hzero 1 (pointer_item 101 0))|].
  split; [by apply (Hzero 2 (pointer_item 102 0))|].
  split; [by apply (Hpos 3 (pointer_item 103 1))|].
  split; [by apply (Hpos 4 (pointer_item 104 2))|].
  rewrite Hret2 in Hdiff.
  change (size (items four_cache)) with 4%nat in Hdiff. lia.
Defined.

(** [fresh_entry_grace_period] on an empty object cache. *)
Lemma fresh_entry_grace_period_witness :
  let priv := cache G_TYPE_OBJECT None in
  let s0 := post (gsk_resource_cache_add_item priv 1 100) in
  let s1 := post (gsk_resource_cache_collect_items s0) in
  let s2 := post (gsk_resource_cache_collect_items s1) in
  supported_value_type (value_type priv) = true
  ∧ items priv !! 1 = None
  ∧ items s0 !! 1 = Some {| item_value_type := G_TYPE_OBJECT; value := 100;
                            last_access_time := 0; age := 1 |}
  ∧ ret (gsk_resource_cache_has_item s1 1) = true
  ∧ ret (gsk_resource_cache_has_item s2 1) = false.
Proof.
  intros priv s0 s1 s2.
  assert (Hty : supported_value_type (value_type priv) = true) by reflexivity.
  assert (Hkey : items priv !! 1 = None) by reflexivity.
  destruct (fresh_entry_grace_period priv 1 100
              (map_to_list (items s0)) (map_to_list (items s1)) Hty Hkey)
    as (_ & _ & H1 & H2).
  - unfold visits. reflexivity.
  - unfold visits. reflexivity.
  - split; [exact Hty|]. split; [exact Hkey|]. split; [reflexivity|].
    split; [exact H1|exact H2].
Defined.

(** [add_item_existing_key]: the entry of age 2 of the four-entry
    cache, and add twice on an empty boxed cache. *)
Lemma add_item_existing_key_witness :
  let priv := cache G_TYPE_BOXED None in
  let s2 := post (gsk_resource_cache_add_item
                    (post (gsk_resource_cache_add_item priv 1 100)) 1 200) in
  (items four_cache !! 4 = Some (pointer_item 104 2)
   ∧ G_MININT64 ≤ 2 < G_MAXINT64
   ∧ items (post (gsk_resource_cache_add_item four_cache 4 999)) !! 4
       = Some (pointer_item 104 3)
   ∧ ret (gsk_resource_cache_get_item
            (post (gsk_resource_cache_add_item four_cache 4 999)) 4 77) = 104)
  ∧ (supported_value_type (value_type priv) = true
     ∧ items priv !! 1 = None
     ∧ items s2 !! 1 = Some {| item_value_type := G_TYPE_BOXED; value := 4196;
                               last_access_time := 0; age := 2 |}
     ∧ ret (gsk_resource_cache_get_item s2 1 77) = 4196).
Proof.
  intros priv s2.
  assert (Hin : items four_cache !! 4 = Some (pointer_item 104 2)) by reflexivity.
  assert (Hage : G_MININT64 ≤ age (pointer_item 104 2) < G_MAXINT64) by (by vm_compute).
  assert (Hty : supported_value_type (value_type priv) = true) by reflexivity.
  assert (Hkey : items priv !! 1 = None) by reflexivity.
  split.
  - destruct (proj1 (add_item_existing_key four_cache 4 0 999 77) _ Hin Hage)
      as (Hitems & _ & _ & Hget).
    split; [exact Hin|]. split; [exact Hage|].
    split; [rewrite Hitems; apply lookup_insert_eq|exact Hget].
  - destruct (proj2 (add_item_existing_key priv 1 100 200 77) Hty Hkey)
      as (item & Hnew & _ & Hitems & _ & Hget).
    injection Hnew as <-.
    split; [exact Hty|]. split; [exact Hkey|].
    split; [fold s2 in Hitems; rewrite Hitems; apply lookup_insert_eq|exact Hget].
Defined.

(** [invalidate_item_clamps]: an entry of age 1, an entry of age 0,
    and add followed by two invalidations on an empty pointer cache. *)
Lemma invalidate_item_clamps_witness :
  let priv := cache G_TYPE_POINTER None in
  let s1 := post (gsk_resource_cache_add_item priv 1 100) in
  let s2 := post (gsk_resource_cache_invalidate_item s1 1) in
  let s3 := post (gsk_resource_cache_invalidate_item s2 1) in
  (items four_cache !! 3 = Some (pointer_item 103 1)
   ∧ 0 ≤ 1 ≤ G_MAXINT64
   ∧ items (post (gsk_resource_cache_invalidate_item four_cache 3)) !! 3
       = Some (pointer_item 103 0)
   ∧ emitted (gsk_resource_cache_invalidate_item four_cache 3) = [])
  ∧ (items four_cache !! 1 = Some (pointer_item 101 0)
     ∧ 0 ≤ 0 ≤ G_MAXINT64
     ∧ items (post (gsk_resource_cache_invalidate_item four_cache 1)) !! 1
         = Some (pointer_item 101 0)
     ∧ emitted (gsk_resource_cache_invalidate_item four_cache 1)
         = [Critical (TooManyInvalidations G_TYPE_POINTER)])
  ∧ (supported_value_type (value_type priv) = true
     ∧ items priv !! 1 = None
     ∧ items s3 = {[ 1 := pointer_item 100 0 ]}
     ∧ ret (gsk_resource_cache_invalidate_item s2 1) = true
     ∧ ret (gsk_resource_cache_invalidate_item s3 2) = false).
Proof.
  intros priv s1 s2 s3.
  assert (H3 : items four_cache !! 3 = Some (pointer_item 103 1)) by reflexivity.
  assert (H1 : items four_cache !! 1 = Some (pointer_item 101 0)) by reflexivity.
  assert (Ha3 : 0 ≤ age (pointer_item 103 1) ≤ G_MAXINT64) by (by vm_compute).
  assert (Ha1 : 0 ≤ age (pointer_item 101 0) ≤ G_MAXINT64) by (by vm_compute).
  assert (Hty : supported_value_type (value_type priv) = true) by reflexivity.
  assert (Hkey : items priv !! 1 = None) by reflexivity.
  split; [|split].
  - destruct (invalidate_item_clamps four_cache 3) as (_ & _ & _ & Hhit & _).
    destruct (Hhit _ H3 Ha3) as (Hitems & _ & Hev).
    split; [exact H3|]. split; [exact Ha3|].
    split; [rewrite Hitems; apply lookup_insert_eq|exact Hev].
  - destruct (invalidate_item_clamps four_cache 1) as (_ & _ & _ & Hhit & _).
    destruct (Hhit _ H1 Ha1) as (Hitems & _ & Hev).
    split; [exact H1|]. split; [exact Ha1|].
    split; [rewrite Hitems; apply lookup_insert_eq|exact Hev].
  - destruct (invalidate_item_clamps priv 1) as (_ & _ & _ & _ & Hseq).
    destruct (Hseq 100 Hty Hkey) as (item & Hs1 & _ & _ & _ & Hs3 & _).
    assert (item = pointer_item 100 1) as ->.
    { apply (inj Some). rewrite <- (lookup_insert_eq (items priv) 1 item), <- Hs1.
      reflexivity. }
    split; [exact Hty|]. split; [exact Hkey|]. split; [exact Hs3|].
    split.
    + rewrite (proj1 (invalidate_item_clamps s2 1)). reflexivity.
    + rewrite (proj1 (invalidate_item_clamps s3 2)). reflexivity.
Defined.

(** [age_never_negative]: three calls on a constructed cache, and
    three calls on an empty pointer cache. *)
Lemma age_never_negative_witness :
  let run p :=
    post (gsk_resource_cache_invalidate_item
            (post (gsk_resource_cache_add_item
                     (post (gsk_resource_cache_add_item p 1 100)) 1 100)) 1) in
  (rtc call (constructed (Some "glyphs")) (run (constructed (Some "glyphs")))
   ∧ map_Forall (λ _ item, 0 ≤ age item) (items (run (constructed (Some "glyphs")))))
  ∧ (resources (cache G_TYPE_POINTER None) = None
     ∧ nsteps call 3 (cache G_TYPE_POINTER None) (run (cache G_TYPE_POINTER None))
     ∧ Z.of_nat 3 ≤ G_MAXINT64
     ∧ map_Forall (λ _ item, 0 ≤ age item ≤ Z.of_nat 3)
         (items (run (cache G_TYPE_POINTER None)))
     ∧ items (run (cache G_TYPE_POINTER None)) = {[ 1 := pointer_item 100 1 ]}).
Proof.
  intros run.
  assert (Hsteps : ∀ p, nsteps call 3 p (run p)).
  { intros p. eapply nsteps_l; [apply call_add|].
    eapply nsteps_l; [apply call_add|].
    eapply nsteps_l; [apply call_invalidate|]. apply nsteps_O. }
  assert (Hn : Z.of_nat 3 ≤ G_MAXINT64) by (by vm_compute).
  split.
  - assert (Hreach : rtc call (constructed (Some "glyphs"))
                       (run (constructed (Some "glyphs"))))
      by (eapply rtc_nsteps_2; apply Hsteps).
    split; [exact Hreach|]. exact (proj1 age_never_negative _ _ Hreach).
  - split; [reflexivity|]. split; [apply Hsteps|]. split; [exact Hn|].
    split; [|reflexivity].
    exact (proj2 age_never_negative (cache G_TYPE_POINTER None) 3%nat _
             eq_refl (Hsteps _) Hn).
Defined.

(** [get_item_keeps_age] on the four-entry cache: a hit, a miss, and a
    sweep after two more gets. *)
Lemma get_item_keeps_age_witness :
  let o := gsk_resource_cache_get_item four_cache 3 50 in
  let touched := get_repeatedly 3 [60; 70] four_cache in
  (items four_cache !! 3 = Some (pointer_item 103 1)
   ∧ ret o = 103
   ∧ items (post o) !! 3
       = Some {| item_value_type := G_TYPE_POINTER; value := 103;
                 last_access_time := 50; age := 1 |})
  ∧ (items four_cache !! 9 = None
     ∧ ret (gsk_resource_cache_get_item four_cache 9 50) = NULL
     ∧ post (gsk_resource_cache_get_item four_cache 9 50) = four_cache)
  ∧ (visits (map_to_list (items four_cache)) four_cache
     ∧ visits (reverse (map_to_list (items touched))) touched
     ∧ ret (collect_items_in (reverse (map_to_list (items touched))) touched)
         = ret (gsk_resource_cache_collect_items four_cache)
     ∧ ret (gsk_resource_cache_collect_items four_cache) = 2).
Proof.
  intros o touched.
  assert (H3 : items four_cache !! 3 = Some (pointer_item 103 1)) by reflexivity.
  assert (H9 : items four_cache !! 9 = None) by reflexivity.
  assert (Hv : visits (map_to_list (items four_cache)) four_cache)
    by (unfold visits; reflexivity).
  assert (Hv' : visits (reverse (map_to_list (items touched))) touched)
    by apply reverse_Permutation.
  destruct (get_item_keeps_age four_cache 3 50) as (Hhit & _ & _ & _ & Hsweep).
  destruct (get_item_keeps_age four_cache 9 50) as (_ & Hmiss & _).
  split; [|split].
  - destruct (Hhit _ H3) as (Hret & Hitems & _).
    split; [exact H3|]. split; [exact Hret|].
    fold o in Hitems. rewrite Hitems. apply lookup_insert_eq.
  - destruct (Hmiss H9) as (Hret & Hpost & _). by repeat split.
  - destruct (Hsweep [60; 70] _ _ Hv Hv') as [Hret _].
    split; [exact Hv|]. split; [exact Hv'|]. split; [exact Hret|reflexivity].
Defined.

(** [add_item_null_value] on an empty boxed cache. *)
Lemma add_item_null_value_witness :
  let priv := cache G_TYPE_BOXED None in
  let o := gsk_resource_cache_add_item priv 1 NULL in
  value_type priv ≠ G_TYPE_INVALID
  ∧ (G_TYPE_FUNDAMENTAL (value_type priv) = G_TYPE_BOXED
     ∨ G_TYPE_FUNDAMENTAL (value_type priv) = G_TYPE_OBJECT)
  ∧ items priv !! 1 = None
  ∧ emitted o = []
  ∧ items (post o) !! 1 = Some {| item_value_type := G_TYPE_BOXED; value := NULL;
                                  last_access_time := 0; age := 1 |}
  ∧ ret (gsk_resource_cache_has_item (post o) 1) = true
  ∧ ret (gsk_resource_cache_get_item (post o) 1 50) = NULL
  ∧ ret (gsk_resource_cache_has_item (post o) 2) = false
  ∧ ret (gsk_resource_cache_get_item (post o) 2 50) = NULL.
Proof.
  intros priv o.
  assert (Hinv : value_type priv ≠ G_TYPE_INVALID) by (by vm_compute).
  assert (Hkind : G_TYPE_FUNDAMENTAL (value_type priv) = G_TYPE_BOXED
                  ∨ G_TYPE_FUNDAMENTAL (value_type priv) = G_TYPE_OBJECT)
    by (left; reflexivity).
  assert (Hkey : items priv !! 1 = None) by reflexivity.
  destruct (add_item_null_value priv 1 50 Hinv Hkind Hkey)
    as (Hev & _ & Hhas & Hget & Hother).
  destruct (Hother 2 eq_refl) as [Hhas2 Hget2].
  split; [exact Hinv|]. split; [exact Hkind|]. split; [exact Hkey|].
  split; [exact Hev|]. split; [reflexivity|]. split; [exact Hhas|].
  split; [exact Hget|]. split; [exact Hhas2|exact Hget2].
Defined.

(** The input on which [gsk_resource_cache_set_value_type] departs from
    its documentation: the pointer type, on a freshly constructed
    cache. *)
Example set_value_type_pointer_rejected :
  let o := gsk_resource_cache_set_value_type (constructed (Key := Z) None)
             G_TYPE_POINTER in
  value_type (post o) = G_TYPE_INVALID
  ∧ emitted o = [Critical (UnsupportedResourceType G_TYPE_POINTER)].
Proof. by vm_compute. Qed.

(** [add_item_without_value_type] on a freshly constructed cache. *)
Lemma add_item_without_value_type_witness :
  let priv := constructed (Key := Z) None in
  let o := gsk_resource_cache_add_item priv 1 100 in
  value_type priv = G_TYPE_INVALID
  ∧ items priv !! 1 = None
  ∧ emitted o = [Critical InvalidResourceType]
  ∧ items (post o) = ∅
  ∧ is_Some (resources (post o))
  ∧ post (gsk_resource_cache_set_value_type (post o) G_TYPE_OBJECT) = post o
  ∧ emitted (gsk_resource_cache_add_item (post o) 2 200)
      = [Critical InvalidResourceType].
Proof.
  intros priv o.
  assert (Hty : value_type priv = G_TYPE_INVALID) by reflexivity.
  assert (Hkey : items priv !! 1 = None) by reflexivity.
  destruct (add_item_without_value_type priv 1 100 Hty Hkey)
    as (Hev & Hitems & _ & _ & _ & Halloc & _ & _ & _ & Hvt & Hlater & _).
  destruct (Hlater 2 200 eq_refl) as [_ Hev2].
  split; [exact Hty|]. split; [exact Hkey|]. split; [exact Hev|].
  split; [exact Hitems|]. split; [exact Halloc|]. split; [apply Hvt|exact Hev2].
Defined.

(** C8 fails as stated: on a freshly constructed cache, which has no
    value type, the rejected add changes the instance data, and the
    hash function, which could be set before the call, can no longer be
    set after it. *)
Lemma add_item_without_value_type_counterexample :
  let priv := constructed (Key := Z) None in
  let o := gsk_resource_cache_add_item priv 1 100 in
  value_type priv = G_TYPE_INVALID
  ∧ resources priv = None
  ∧ resources (post o) = Some (g_hash_table_new_full NULL NULL NULL)
  ∧ post o ≠ priv
  ∧ key_hash (post (gsk_resource_cache_set_hash_func priv 7)) = 7
  ∧ emitted (gsk_resource_cache_set_hash_func priv 7) = []
  ∧ key_hash (post (gsk_resource_cache_set_hash_func (post o) 7)) = NULL
  ∧ emitted (gsk_resource_cache_set_hash_func (post o) 7)
      = [Critical (AssertionFailed "priv->resources == NULL")].
Proof.
  intros priv o. repeat split.
  intros Heq. apply (f_equal resources) in Heq. discriminate Heq.
Qed.

(** [configuration_frozen_except_name] after a first add. *)
Lemma configuration_frozen_except_name_witness :
  let priv := post (gsk_resource_cache_add_item (cache G_TYPE_POINTER None) 1 100) in
  is_Some (resources priv)
  ∧ post (gsk_resource_cache_set_hash_func priv 7) = priv
  ∧ post (gsk_resource_cache_set_equal_func priv 7) = priv
  ∧ post (gsk_resource_cache_set_free_func priv 7) = priv
  ∧ post (gsk_resource_cache_set_value_type priv G_TYPE_OBJECT) = priv
  ∧ config (post (gsk_resource_cache_set_name priv (Some "glyphs")))
      = (NULL, NULL, NULL, G_TYPE_POINTER, Some "glyphs").
Proof.
  intros priv.
  assert (Hres : is_Some (resources priv)) by (eexists; reflexivity).
  destruct (configuration_frozen_except_name priv Hres) as (Hh & He & Hf & Ht & Hn & _).
  split; [exact Hres|]. split; [apply Hh|]. split; [apply He|].
  split; [apply Hf|]. split; [apply Ht|]. apply Hn.
Defined.

(** C9 fails as stated: after a first add the table exists, and
    setting the name is accepted and changes the configuration. *)
Lemma set_name_after_add_counterexample :
  let priv := post (gsk_resource_cache_add_item (cache G_TYPE_POINTER None) 1 100) in
  let o := gsk_resource_cache_set_name priv (Some "glyphs") in
  is_Some (resources priv)
  ∧ name priv = None
  ∧ name (post o) = Some "glyphs"
  ∧ emitted o = []
  ∧ config (post o) ≠ config priv.
Proof.
  intros priv o. split; [eexists; reflexivity|]. repeat split.
  intros Heq. discriminate Heq.
Qed.

(** *** The further properties at concrete caches *)

Lemma item_new_free_balanced_witness :
  let item := boxed_item 4196 1 in
  resource_cache_item_new (Key := Z) G_TYPE_BOXED 100
    = (Some item, [BoxedCopy G_TYPE_BOXED 100])
  ∧ (100 ≠ NULL → g_boxed_copy G_TYPE_BOXED 100 ≠ NULL)
  ∧ resource_cache_item_free (Key := Z) item = [BoxedFree G_TYPE_BOXED 4196].
Proof.
  intros item.
  assert (Hnew : resource_cache_item_new (Key := Z) G_TYPE_BOXED 100
                   = (Some item, [BoxedCopy G_TYPE_BOXED 100])) by reflexivity.
  assert (Hcopy : 100 ≠ NULL → g_boxed_copy G_TYPE_BOXED 100 ≠ NULL) by (by vm_compute).
  split; [exact Hnew|]. split; [exact Hcopy|].
  exact (proj1 (item_new_free_balanced _ _ _ _ Hnew Hcopy)).
Defined.

Lemma add_item_inserts_iff_supported_witness :
  let unsupported := cache (G_TYPE_MAKE_FUNDAMENTAL 6) None in
  items unsupported !! 1 = None
  ∧ supported_value_type (value_type unsupported) = false
  ∧ items (post (gsk_resource_cache_add_item unsupported 1 100)) = ∅
  ∧ emitted (gsk_resource_cache_add_item unsupported 1 100)
      = [Critical (UnsupportedResourceType (G_TYPE_MAKE_FUNDAMENTAL 6))]
  ∧ is_Some (items (post (gsk_resource_cache_add_item (cache G_TYPE_OBJECT None) 1 100))
               !! 1).
Proof.
  intros unsupported.
  assert (Hkey : items unsupported !! 1 = None) by reflexivity.
  assert (Hs : supported_value_type (value_type unsupported) = false) by reflexivity.
  destruct (add_item_inserts_iff_supported unsupported 1 100 Hkey) as [_ Hfail].
  destruct (Hfail Hs) as (Hitems & _ & Hev).
  destruct (add_item_inserts_iff_supported (cache G_TYPE_OBJECT None) 1 100 eq_refl)
    as [Hiff _].
  split; [exact Hkey|]. split; [exact Hs|]. split; [exact Hitems|].
  split; [exact Hev|]. apply Hiff. reflexivity.
Defined.

Lemma add_then_get_round_trip_witness :
  let priv := cache G_TYPE_BOXED None in
  value_type priv ≠ G_TYPE_INVALID
  ∧ items priv !! 1 = None
  ∧ ret (gsk_resource_cache_get_item (post (gsk_resource_cache_add_item priv 1 100)) 1 50)
      = 4196.
Proof.
  intros priv.
  assert (Hinv : value_type priv ≠ G_TYPE_INVALID) by (by vm_compute).
  assert (Hkey : items priv !! 1 = None) by reflexivity.
  destruct (add_then_get_round_trip priv 1 100 50 Hinv Hkey) as (_ & _ & Hb & _).
  split; [exact Hinv|]. split; [exact Hkey|]. exact (Hb eq_refl).
Defined.

Lemma operations_are_local_witness :
  (4 : Z) ≠ 3
  ∧ items (post (gsk_resource_cache_add_item four_cache 3 999)) !! 4
      = Some (pointer_item 104 2)
  ∧ items (post (gsk_resource_cache_invalidate_item four_cache 3)) !! 4
      = Some (pointer_item 104 2).
Proof.
  assert (Hne : (4 : Z) ≠ 3) by (by vm_compute).
  destruct (operations_are_local four_cache 3 4 999 50 Hne) as (Hadd & _ & Hinv & _).
  split; [exact Hne|]. split; [rewrite Hadd; reflexivity|rewrite Hinv; reflexivity].
Defined.

Lemma collect_releases_exactly_stale_witness :
  let order := map_to_list (items boxed_cache) in
  visits order boxed_cache
  ∧ emitted (collect_items_in order boxed_cache)
      = [KeyNotify 7 1; BoxedFree G_TYPE_BOXED 4196].
Proof.
  intros order.
  assert (Hv : visits order boxed_cache) by (unfold visits; reflexivity).
  destruct (collect_releases_exactly_stale boxed_cache order Hv) as (Hev & _).
  split; [exact Hv|]. rewrite Hev. reflexivity.
Defined.

Lemma entry_outlives_its_age_witness :
  items four_cache !! 4 = Some (pointer_item 104 2)
  ∧ 0 ≤ 2 ≤ G_MAXINT64
  ∧ items (collect_repeatedly 2 four_cache) !! 4 = Some (pointer_item 104 0)
  ∧ items (collect_repeatedly 3 four_cache) !! 4 = None.
Proof.
  assert (Hkey : items four_cache !! 4 = Some (pointer_item 104 2)) by reflexivity.
  assert (Hage : 0 ≤ age (pointer_item 104 2) ≤ G_MAXINT64) by (by vm_compute).
  split; [exact Hkey|]. split; [exact Hage|]. split.
  - apply (proj1 (entry_outlives_its_age four_cache 4 _ 2 Hkey Hage)). by vm_compute.
  - apply (proj2 (entry_outlives_its_age four_cache 4 _ 3 Hkey Hage)). by vm_compute.
Defined.

Lemma readded_entry_survives_witness :
  let s := post (gsk_resource_cache_add_item four_cache 3 999) in
  items four_cache !! 3 = Some (pointer_item 103 1)
  ∧ 0 ≤ 1 < G_MAXINT64
  ∧ visits (map_to_list (items s)) s
  ∧ items (post (gsk_resource_cache_collect_items s)) !! 3 = Some (pointer_item 103 1).
Proof.
  intros s.
  assert (Hkey : items four_cache !! 3 = Some (pointer_item 103 1)) by reflexivity.
  assert (Hage : 0 ≤ age (pointer_item 103 1) < G_MAXINT64) by (by vm_compute).
  assert (Hv : visits (map_to_list (items s)) s) by (unfold visits; reflexivity).
  split; [exact Hkey|]. split; [exact Hage|]. split; [exact Hv|].
  exact (proj1 (readded_entry_survives four_cache 3 999 _ _ Hkey Hage Hv)).
Defined.

Lemma invalidate_then_collect_evicts_witness :
  let priv := post (gsk_resource_cache_add_item (cache G_TYPE_POINTER None) 1 100) in
  let s := post (gsk_resource_cache_invalidate_item priv 1) in
  items priv !! 1 = Some (pointer_item 100 1)
  ∧ 0 ≤ 1 ≤ 1
  ∧ visits (map_to_list (items s)) s
  ∧ ret (gsk_resource_cache_has_item (post (gsk_resource_cache_collect_items s)) 1)
      = false.
Proof.
  intros priv s.
  assert (Hkey : items priv !! 1 = Some (pointer_item 100 1)) by reflexivity.
  assert (Hage : 0 ≤ age (pointer_item 100 1) ≤ 1) by (by vm_compute).
  assert (Hv : visits (map_to_list (items s)) s) by (unfold visits; reflexivity).
  split; [exact Hkey|]. split; [exact Hage|]. split; [exact Hv|].
  exact (proj2 (invalidate_then_collect_evicts priv 1 _ _ Hkey Hage Hv)).
Defined.


Lemma stored_value_never_rewritten_witness :
  call four_cache (post (gsk_resource_cache_invalidate_item four_cache 4))
  ∧ items four_cache !! 4 = Some (pointer_item 104 2)
  ∧ items (post (gsk_resource_cache_invalidate_item four_cache 4)) !! 4
      = Some (pointer_item 104 1)
  ∧ value (pointer_item 104 1) = value (pointer_item 104 2)
  ∧ item_value_type (pointer_item 104 1) = item_value_type (pointer_item 104 2).
Proof.
  assert (Hcall : call four_cache (post (gsk_resource_cache_invalidate_item four_cache 4)))
    by apply call_invalidate.
  assert (Hkey : items four_cache !! 4 = Some (pointer_item 104 2)) by reflexivity.
  assert (Hkey' : items (post (gsk_resource_cache_invalidate_item four_cache 4)) !! 4
                    = Some (pointer_item 104 1)) by reflexivity.
  split; [exact Hcall|]. split; [exact Hkey|]. split; [exact Hkey'|].
  exact (stored_value_never_rewritten _ _ 4 _ _ Hcall Hkey Hkey').
Defined.

Lemma entries_share_supported_type_witness :
  let priv0 := cache G_TYPE_OBJECT None in
  let priv := post (gsk_resource_cache_add_item priv0 1 100) in
  resources priv0 = None
  ∧ rtc call priv0 priv
  ∧ value_type priv = G_TYPE_OBJECT
  ∧ items priv !! 1 = Some {| item_value_type := G_TYPE_OBJECT; value := 100;
                              last_access_time := 0; age := 1 |}.
Proof.
  intros priv0 priv.
  assert (Hreach : rtc call priv0 priv) by (apply rtc_once, call_add).
  split; [reflexivity|]. split; [exact Hreach|].
  split; [|reflexivity].
  exact (proj1 (entries_share_supported_type priv0 priv eq_refl Hreach)).
Defined.


Lemma table_captures_configuration_witness :
  let priv := post (gsk_resource_cache_set_free_func
                      (post (gsk_resource_cache_add_item boxed_unallocated 1 100)) 9) in
  resources boxed_unallocated = None
  ∧ rtc call (post (gsk_resource_cache_add_item boxed_unallocated 1 100)) priv
  ∧ ∃ tbl, resources priv = Some tbl
      ∧ hash_func tbl = 5 ∧ key_equal_func tbl = 6 ∧ key_destroy_func tbl = 7.
Proof.
  intros priv.
  assert (Hreach : rtc call (post (gsk_resource_cache_add_item boxed_unallocated 1 100)) priv)
    by (apply rtc_once, call_set_free_func).
  split; [reflexivity|]. split; [exact Hreach|].
  exact (table_captures_configuration boxed_unallocated 1 100 priv eq_refl Hreach).
Defined.


Lemma age_counts_adds_and_invalidations_witness :
  items four_cache !! 3 = Some (pointer_item 103 1)
  ∧ 0 ≤ 1
  ∧ 1 + Z.of_nat (length [7; 8; 9]) ≤ G_MAXINT64
  ∧ items (add_repeatedly 3 [7; 8; 9] four_cache) !! 3 = Some (pointer_item 103 4)
  ∧ items (invalidate_repeatedly 3 5 four_cache) !! 3 = Some (pointer_item 103 0).
Proof.
  assert (Hkey : items four_cache !! 3 = Some (pointer_item 103 1)) by reflexivity.
  assert (Hage : 0 ≤ age (pointer_item 103 1)) by (by vm_compute).
  assert (Hmax : age (pointer_item 103 1) + Z.of_nat (length [7; 8; 9]) ≤ G_MAXINT64)
    by (by vm_compute).
  destruct (age_counts_adds_and_invalidations four_cache 3 _ [7; 8; 9] 5 Hkey Hage Hmax)
    as [Hadd Hinv].
  split; [exact Hkey|]. split; [exact Hage|]. split; [exact Hmax|].
  split; [exact Hadd|exact Hinv].
Defined.

End Concrete.

Section ConcreteHeap.
Local Existing Instance Examples.heap_types.
Import Examples.

(** Two adds (one of them of [NULL]), an invalidation and a sweep on a
    boxed cache, then dispose: one copy is made and the one copy is
    freed. *)
Lemma acquisitions_and_releases_balance_witness :
  let s1 := post (gsk_resource_cache_add_item boxed_unallocated 1 100) in
  let s2 := post (gsk_resource_cache_add_item s1 2 NULL) in
  let s3 := post (gsk_resource_cache_invalidate_item s2 1) in
  let s4 := post (gsk_resource_cache_collect_items s3) in
  let t := emitted (gsk_resource_cache_add_item boxed_unallocated 1 100)
           ++ emitted (gsk_resource_cache_add_item s1 2 NULL)
           ++ emitted (gsk_resource_cache_invalidate_item s2 1)
           ++ emitted (gsk_resource_cache_collect_items s3) ++ [] in
  (∀ ty v, v ≠ NULL → g_boxed_copy ty v ≠ NULL)
  ∧ resources boxed_unallocated = None
  ∧ run boxed_unallocated t s4
  ∧ visits (map_to_list (items s4)) s4
  ∧ acquired t = [BoxedFree G_TYPE_BOXED 4196]
  ∧ released (t ++ emitted (gsk_resource_cache_dispose s4))
      ≡ₚ [BoxedFree G_TYPE_BOXED 4196].
Proof.
  intros s1 s2 s3 s4 t.
  assert (Hcopy : ∀ ty v, v ≠ NULL → g_boxed_copy ty v ≠ NULL).
  { intros ty v _. cbn. unfold NULL. lia. }
  assert (Hrun : run boxed_unallocated t s4).
  { apply run_step with (priv1 := s1); [apply emits_add|].
    apply run_step with (priv1 := s2); [apply emits_add|].
    apply run_step with (priv1 := s3); [apply emits_invalidate|].
    apply run_step with (priv1 := s4); [|apply run_done].
    apply (emits_collect s3 (map_to_list (items s3))). unfold visits. reflexivity. }
  assert (Hv : visits (map_to_list (items s4)) s4) by (unfold visits; reflexivity).
  destruct (acquisitions_and_releases_balance boxed_unallocated t s4 _
              Hcopy eq_refl Hrun Hv) as [_ Hbal].
  split; [exact Hcopy|]. split; [reflexivity|]. split; [exact Hrun|].
  split; [exact Hv|]. split; [reflexivity|]. exact Hbal.
Defined.

End ConcreteHeap.
